(* ===== verification/_CoqProject ===== *)
-Q . S2P
Prelude.v
Fsa.v
Actions.v
Store.v
Scheduler.v
Dispatcher.v
Bootstrap.v
Page.v
Ordering.v
Runs.v
Render.v
