(* ===== verification/Prelude.v ===== *)
(** * A verification development of [src/pages/redux.tsx]

    ** The program

    [src/pages/redux.tsx] is the Redux page of a Next.js example.  Its parts,
    and how they interact:
    - the action descriptors ([{type, payload}]) built by the creators of
      [store/counter/actions] and [store/stories/actions]: one creator per
      synchronous operation ([increment], [decrement]) and three linked
      creators ([started], [done], [failed]) per asynchronous one
      ([incrementAsync], [decrementAsync], [fetchTopStories], [fetchStory]);
    - the store's [dispatch], which runs the external reducer and then the
      subscribed listeners;
    - [class ReduxActionDispatcher] (lines 12-86), the async operation
      runner: each method dispatches [started], hands its work to a timer
      ([setTimeout], 1000 ms) or awaits a remote call, and dispatches [done]
      or [failed]; the constructor binds two of its five methods;
    - [mapStateToProps], [mapDispatchToProps] (lines 88-99), which hand the
      state and a fresh dispatcher to the presentation component;
    - [enhance] (lines 101-112), the bootstrap hook run before a render:
      [increment({delta: 5})] on the server, then the first five top story
      ids as one [fetchTopStories.done].

    ** Files

    - [Prelude] (this file): JavaScript completions (normal or thrown), the
      state-and-exception monad [js] with [try]/[catch] ([js_try]) and the
      settling of async bodies ([js_settle]), its notation scope
      [js_scope], the hint databases [js] and [js_rw], the scan [scan_opt]
      and the counter [countb] shared by the trace arguments.
    - [Fsa]: Module [Descriptor] (the record [Action], phases,
      phase-dependent payloads) and Module [Factory] (the creators, the kind
      strings [<operation>/<phase>], their parser).  Modelled from the spec:
      the creators' library is not under [src/].
    - [Actions]: the page's vocabulary: Modules [Counter] and [Stories] (the
      creators the page imports, modelled from the spec) and [ReduxAction]
      (line 10) as a closed variant; the operation, phase and correlation
      key a descriptor carries.
    - [Store]: Module [Store]: the interface [Reducer] of the external
      reducer, the [host] (what the environment decides: the outcome of
      each remote call, a fault of [setTimeout], a fault of a listener), the
      [world] (snapshot, ordered dispatch log, task queue, clock, escaped
      errors), [dispatch], [setTimeout], [await_then], and the event loop:
      [loop_step] (any ready task runs, or time passes) and the
      deterministic schedule [run_next]/[drain]; the invariant
      [snapshot_inv] (the snapshot is the reducer folded over the log).
    - [Scheduler]: Module [Scheduler]: the host's order of timers
      ([next_timer]: earliest due time, first scheduled among equal ones;
      [host_step]: a settled continuation at any turn, the next timer once
      due, or time passing), a refinement of [loop_step].  Modelled from
      the spec (section 9).
    - [Dispatcher]: Module [Dispatcher]: the class's methods, one
      definition each; the timer callbacks and the code after an [await]
      are defunctionalised jobs ([djob]) the event loop runs; [invoke]
      models a call through the instance and a detached call.
    - [Bootstrap]: Module [Bootstrap]: [enhance] up to its [await] and
      [enhance_resume] after it.
    - [Page]: Module [Page]: the page's job type, the two [map*ToProps],
      [fire] (a call of the props' methods or a run of the hook),
      [reachable] (every interleaving of events and event-loop turns from a
      fresh store), the lifecycle automaton [outstanding], and the system
      theorems; [fire_preserves]/[run_task_preserves], which
      carry any property kept by the store's primitives to every event and
      task of the page.
    - [Ordering]: Module [Ordering]: the worlds reached under the host's
      order ([host_reachable]), the first-in first-out automaton of the
      open timer-driven invocations ([timer_order]) and the invariant that
      the queue's timers stay sorted by due time.
    - [Runs]: Module [Runs]: runs from a fresh store ([page_step],
      [runs_from]): the snapshot as a fold of the reducer over the log
      along every run (the lemma the renders read their props with), and
      termination of the turns in which no time passes.
    - [Render]: Module [Render]: both legs of line 114.  The server render
      ([server_render]): a fresh store, the hook run and awaited, the
      props of [mapStateToProps] and [mapDispatchToProps], a rejected hook
      failing the render.  The client navigation ([client_navigation], a
      relation): the client's store, the hook run with [isServer = false],
      any turns of the event loop while it awaits, the props taken when
      its continuation has run ([hook_outcome]).

    ** What is proved

    By component; the theorems that state the properties of the page carry
    their ids (C1-C20) in their doc comments.
    - Factory (library lemmas): kinds round-trip through the parser and
      determine operation and phase; the three creators of one operation
      are correlated by name and params.
    - Store (library lemmas): the frame of each primitive; draining the
      event loop terminates and is a schedule of [loop_step].
    - Dispatcher: each method on every branch ([setTimeout] scheduling or
      throwing; the remote call resolving or rejecting); a fault inside a
      timer callback escapes uncaught with no [failed]; a listener fault on
      [done] in [fetchStoryAsync] yields two terminal descriptors; detached
      calls of the three unbound methods fail without dispatching;
      [increment]/[decrement] dispatch their argument unchanged and let a
      listener's exception reach their caller; a listener throwing on a
      [started] (dispatched outside the [try]) leaves that invocation open
      for ever.
    - Bootstrap: both legs up to the [await]; the continuation on a
      resolved call (one [done] with [slice(0, 5)] of the ids) and on a
      rejected one (an unhandled rejection, nothing dispatched); the
      client leg dispatches.
    - Page: the lifecycle invariant over every reachable world (for each
      operation and params, each terminal closes an earlier [started] with
      the same params, and the open invocations are exactly the pending
      jobs), by rule induction on [reachable]; liveness: from any reachable
      world, draining the queue closes every invocation with exactly one
      terminal.
    - Ordering: the host's order is a schedule of [loop_step]; under it,
      timer-driven invocations complete in the order they started (a
      [done] closes the oldest open one, a [failed] the one just started),
      by rule induction with the invariant that timers are sorted by due
      time, so the next timer is the first one scheduled; running the
      pending tasks oldest first is a run of the host that closes every
      open timer-driven invocation.  For every schedule of [loop_step]:
      once 1000 ms have passed and no task is ready, nothing is pending and
      every invocation is closed (every pending task is due within 1000 ms,
      and turns only take tasks off the queue).
    - Runs: for every host, the relation of turns in which no time
      passes is well founded (measure: the length of the queue), because
      no job of the page schedules further work.
    - Render: the server render yields the reducer folded over
      [increment({delta: 5})] and [fetchTopStories.done] with the first five
      ids, or fails with the message of a rejected [fetchTopStoryIds], or
      of a subscriber throwing on the seed dispatch (the hook has no
      [catch]); a client navigation, under any schedule, dispatches meanwhile only
      terminal descriptors of earlier work, then the hook's one
      [fetchTopStories.done], and hands the component the client snapshot
      with all of them applied.

    ** Bounds and fuel

    [drain] takes the number of pending tasks as fuel; it is enough because
    no job schedules further work ([run_job_queue]), so each turn removes
    one task ([drain_terminates]); the same measure, the length of the
    queue, makes the turns without time passing well founded
    ([Runs.busy_turns_terminate]).  A server render drains as many turns as
    the hook left tasks (one).  Numbers of the page ([delta], story
    ids, the counter) are JavaScript doubles; they are modelled as [Z]: the
    page only passes them around (its constants are 1, 5 and 1000), and the
    arithmetic on them is the external reducer's.

    ** Not modelled

    The presentation component [components/pages/redux] and the HOC
    [initialProps] beyond its awaiting of the hook (rendering), the reducers and root state (kept abstract
    behind [Reducer]: the lifecycle does not depend on them), the transport
    of the remote API (an outcome chosen by the [host]), timer ordering
    beyond due time and scheduling order ([Scheduler]; no cancellation, as
    in the reference behaviour), [subscribe]/[unsubscribe] (the page never
    calls them: [react-redux] does; a listener is represented by the fault
    it may raise), the library code of [withRedux] (store caching; the client's
    store is any reachable world), and the serialisation of the state
    from server to client.

    ** Plan for later sittings

    Every part of [src/pages/redux.tsx] has a model.  What remains is
    outside [src/]: the reducers and root state ([store/]), which the spec
    excludes and which the theorems take as any [Reducer]; the presentation
    components; the remote API, whose outcomes the [host] chooses. *)

From stdpp Require Import base list strings.
From Stdlib Require Import ZArith.

(** ** JavaScript completions and the effect monad

    A JavaScript statement completes normally with a value or abruptly with
    a thrown exception; the code under study only ever reads [e.message] of
    what it catches, so a thrown value is represented by its message. *)

Inductive completion (A : Type) : Type :=
| Normal (v : A)
| Throw (msg : string).
Arguments Normal {A} v.
Arguments Throw {A} msg.

(** A computation over a world [W]: explicit state passing with exceptions. *)
Definition js (W A : Type) : Type := W -> completion A * W.

Section Js.
Context {W : Type}.

Definition js_ret {A} (v : A) : js W A := fun w => (Normal v, w).

Definition js_bind {A B} (m : js W A) (k : A -> js W B) : js W B :=
fun w =>
  match m w with
  | (Normal v, w') => k v w'
  | (Throw e, w') => (Throw e, w')
  end.

Definition js_throw {A} (e : string) : js W A := fun w => (Throw e, w).

(** [try { m } catch (e) { h(e.message) }] *)
Definition js_try {A} (m : js W A) (h : string -> js W A) : js W A :=
fun w =>
  match m w with
  | (Throw e, w') => h e w'
  | r => r
  end.

Definition js_modify (f : W -> W) : js W unit := fun w => (Normal tt, f w).

(** The body of an [async] function, or a callback run by the event loop:
  an exception does not reach the caller; it becomes a rejected promise
  (or an uncaught error) that the host reports through [report]. *)
Definition js_settle (report : string -> W -> W) (m : js W unit) : js W unit :=
fun w =>
  match m w with
  | (Throw e, w') => (Normal tt, report e w')
  | r => r
  end.

(** A value already settled by the environment, as a computation:
  [await p] on a promise that resolved or rejected. *)
Definition js_lift {A} (c : completion A) : js W A :=
fun w => (c, w).

(** The world a computation leaves behind. *)
Definition js_exec {A} (m : js W A) (w : W) : W := snd (m w).
End Js.

Declare Scope js_scope.
Delimit Scope js_scope with js.
Notation "'let*' x ':=' m 'in' k" := (js_bind m (fun x => k))
  (at level 10, x name, m at level 100, k at level 200) : js_scope.
Notation "m ;; k" := (js_bind m (fun _ => k))
  (at level 100, k at level 200, right associativity) : js_scope.
Open Scope js_scope.

(** ** Generic lemmas on the monad *)

Create HintDb js discriminated.
Create Rewrite HintDb js_rw.

Section JsLemmas.
Context {W : Type}.

Lemma js_bind_normal {A B} (m : js W A) (k : A -> js W B) w v w' :
m w = (Normal v, w') -> js_bind m k w = k v w'.
Proof. intros H. unfold js_bind. by rewrite H. Qed.

Lemma js_bind_throw {A B} (m : js W A) (k : A -> js W B) w e w' :
m w = (Throw e, w') -> js_bind m k w = (Throw e, w').
Proof. intros H. unfold js_bind. by rewrite H. Qed.

Lemma js_try_normal {A} (m : js W A) h w v w' :
m w = (Normal v, w') -> js_try m h w = (Normal v, w').
Proof. intros H. unfold js_try. by rewrite H. Qed.

Lemma js_try_throw {A} (m : js W A) h w e w' :
m w = (Throw e, w') -> js_try m h w = h e w'.
Proof. intros H. unfold js_try. by rewrite H. Qed.

Lemma js_bind_assoc {A B C} (m : js W A) (k : A -> js W B) (k' : B -> js W C) w :
js_bind (js_bind m k) k' w = js_bind m (fun x => js_bind (k x) k') w.
Proof. unfold js_bind. destruct (m w) as [[v|e] w']; reflexivity. Qed.

Lemma js_bind_ret {A B} (v : A) (k : A -> js W B) w : js_bind (js_ret v) k w = k v w.
Proof. reflexivity. Qed.

Lemma js_settle_ok report (m : js W unit) w :
fst (m w) = Normal tt -> js_settle report m w = m w.
Proof. unfold js_settle. destruct (m w) as [[[]|e] w']; cbn; congruence. Qed.

(** A settled computation never throws. *)
Lemma js_settle_normal report (m : js W unit) w :
fst (js_settle report m w) = Normal tt.
Proof. unfold js_settle. destruct (m w) as [[[]|e] w']; reflexivity. Qed.
End JsLemmas.

#[export] Hint Rewrite @js_bind_assoc @js_bind_ret : js_rw.

(** ** Invariants of the world kept by a computation *)

(** [m] keeps [P]: from a world satisfying [P], whatever [m] completes
    with, the world it leaves satisfies [P]. *)
Definition preserves {W A} (P : W -> Prop) (m : js W A) : Prop :=
  forall w, P w -> P (snd (m w)).

Section Preserves.
Context {W : Type} (P : W -> Prop).

Lemma preserves_ret {A} (v : A) : preserves P (js_ret v).
Proof. by intros w. Qed.

Lemma preserves_throw {A} (e : string) : preserves P (js_throw (A:=A) e).
Proof. by intros w. Qed.

Lemma preserves_lift {A} (c : completion A) : preserves P (js_lift c).
Proof. by intros w. Qed.

Lemma preserves_modify (f : W -> W) :
  (forall w, P w -> P (f w)) -> preserves P (js_modify f).
Proof. intros Hf w. apply Hf. Qed.

Lemma preserves_bind {A B} (m : js W A) (k : A -> js W B) :
  preserves P m -> (forall v, preserves P (k v)) -> preserves P (js_bind m k).
Proof.
  intros Hm Hk w Hw. unfold js_bind. specialize (Hm w Hw).
  destruct (m w) as [[v|e] w']; [by apply Hk|done].
Qed.

Lemma preserves_try {A} (m : js W A) (h : string -> js W A) :
  preserves P m -> (forall e, preserves P (h e)) -> preserves P (js_try m h).
Proof.
  intros Hm Hh w Hw. unfold js_try. specialize (Hm w Hw).
  destruct (m w) as [[v|e] w']; [done|by apply Hh].
Qed.

Lemma preserves_settle (report : string -> W -> W) (m : js W unit) :
  (forall e w, P w -> P (report e w)) -> preserves P m -> preserves P (js_settle report m).
Proof.
  intros Hr Hm w Hw. unfold js_settle. specialize (Hm w Hw).
  destruct (m w) as [[[]|e] w']; [done|by apply Hr].
Qed.
End Preserves.

#[export] Hint Resolve preserves_ret preserves_throw preserves_lift preserves_modify
  preserves_bind preserves_try preserves_settle : js.

(** Unfold the monad operations of a goal and compute. *)
Ltac js_unfold :=
  unfold js_exec, js_settle, js_try, js_bind, js_ret, js_throw, js_modify, js_lift in *;
  cbn in *.

(** ** Generic lemmas on lists and options *)

(** Option bind over an accumulator: the shape of every left-to-right scan of
    a trace in this development. *)
Fixpoint scan_opt {A B} (f : B -> A -> option B) (b : B) (l : list A) : option B :=
  match l with
  | [] => Some b
  | x :: l' => match f b x with Some b' => scan_opt f b' l' | None => None end
  end.

Lemma scan_opt_app {A B} (f : B -> A -> option B) b l1 l2 :
  scan_opt f b (l1 ++ l2) =
  match scan_opt f b l1 with Some b' => scan_opt f b' l2 | None => None end.
Proof.
  revert b. induction l1 as [|x l1 IH]; intros b; simpl; [done|].
  destruct (f b x); [apply IH|done].
Qed.

Lemma scan_opt_prefix_none {A B} (f : B -> A -> option B) b l1 l2 :
  scan_opt f b l1 = None -> scan_opt f b (l1 ++ l2) = None.
Proof. rewrite scan_opt_app. by intros ->. Qed.

#[export] Hint Rewrite @scan_opt_app : js_rw.

(** The number of elements of a list satisfying a boolean test. *)
Definition countb {A} (p : A -> bool) (l : list A) : nat := length (List.filter p l).

Lemma countb_app {A} (p : A -> bool) l1 l2 : countb p (l1 ++ l2) = countb p l1 + countb p l2.
Proof. unfold countb. by rewrite List.filter_app, length_app. Qed.

Lemma countb_cons {A} (p : A -> bool) x l :
  countb p (x :: l) = (if p x then 1 else 0) + countb p l.
Proof. unfold countb. simpl. by destruct (p x). Qed.

#[export] Hint Rewrite @countb_app @countb_cons : js_rw.
