(* ===== verification/Fsa.v ===== *)
(** * Action descriptors and the async action factory

    The descriptors dispatched by [src/pages/redux.tsx] are built by the
    creators of [store/counter/actions] and [store/stories/actions], which
    are not under [src/]: they are modelled here from the spec (sections 3
    and 4.1).  [Descriptor] holds the record [{type, payload}] and the
    phase-dependent payloads; [Factory] holds the creators of a synchronous
    operation and the three linked creators of an asynchronous one, the
    [type] strings they produce, and a parser showing that a [type] string
    determines its operation and phase. *)

From S2P Require Import Prelude.
From stdpp Require Import base list strings.
From Stdlib Require Import Ascii.

Module Descriptor.

(** An action descriptor: a kind tag ([type]) and a payload. *)
Record Action (P : Type) := mkAction { type_ : string; payload : P }.
Arguments mkAction {P} _ _.
Arguments type_ {P} _.
Arguments payload {P} _.

(** The lifecycle phases of an asynchronous operation. *)
Inductive phase := Started | Done | Failed.

#[export] Instance phase_eq_dec : EqDecision phase.
Proof. solve_decision. Defined.

(** Phase-dependent payloads: [started: params],
    [done: {params, result}], [failed: {params, error}]. *)
Inductive AsyncPayload (P R : Type) :=
| AStarted (params : P)
| ADone (params : P) (result : R)
| AFailed (params : P) (error : string).
Arguments AStarted {P R} _.
Arguments ADone {P R} _ _.
Arguments AFailed {P R} _ _.

Definition payload_phase {P R} (pl : AsyncPayload P R) : phase :=
  match pl with AStarted _ => Started | ADone _ _ => Done | AFailed _ _ => Failed end.

Definition payload_params {P R} (pl : AsyncPayload P R) : P :=
  match pl with AStarted p | ADone p _ | AFailed p _ => p end.

End Descriptor.

Module Factory.
Import Descriptor.

Definition phase_suffix (ph : phase) : string :=
  match ph with Started => "started" | Done => "done" | Failed => "failed" end.

(** The kind of a phase of an operation: [<operation>/<phase>]. *)
Definition async_type (name : string) (ph : phase) : string :=
  name +:+ String "/" (phase_suffix ph).

(** The creator of a synchronous operation: the kind is the name. *)
Definition actionCreator {P} (name : string) (params : P) : Action P :=
  mkAction name params.

(** The three linked creators of an asynchronous operation. *)
Record AsyncActionCreators (P R : Type) := {
  ac_type : string;
  started : P -> Action (AsyncPayload P R);
  done : P -> R -> Action (AsyncPayload P R);
  failed : P -> string -> Action (AsyncPayload P R)
}.
Arguments ac_type {P R} _.
Arguments started {P R} _ _.
Arguments done {P R} _ _ _.
Arguments failed {P R} _ _ _.

Definition asyncActionCreators {P R} (name : string) : AsyncActionCreators P R := {|
  ac_type := name;
  started := fun p => mkAction (async_type name Started) (AStarted p);
  done := fun p r => mkAction (async_type name Done) (ADone p r);
  failed := fun p e => mkAction (async_type name Failed) (AFailed p e)
|}.

(** A descriptor of operation [name] is well formed when its kind names
    the phase its payload has. *)
Definition wf_async {P R} (name : string) (a : Action (AsyncPayload P R)) : bool :=
  bool_decide (type_ a = async_type name (payload_phase (payload a))).

(** ** Parsing a kind back into operation and phase *)

Definition slash : ascii := "/"%char.

(** Split at the last ['/']. *)
Fixpoint split_last_slash (s : string) : option (string * string) :=
  match s with
  | EmptyString => None
  | String c s' =>
      match split_last_slash s' with
      | Some (a, b) => Some (String c a, b)
      | None => if Ascii.eqb c slash then Some (EmptyString, s') else None
      end
  end.

Definition phase_of_suffix (s : string) : option phase :=
  if bool_decide (s = "started") then Some Started
  else if bool_decide (s = "done") then Some Done
  else if bool_decide (s = "failed") then Some Failed
  else None.

Definition parse_type (s : string) : option (string * phase) :=
  match split_last_slash s with
  | Some (name, suffix) =>
      match phase_of_suffix suffix with Some ph => Some (name, ph) | None => None end
  | None => None
  end.

(** ** Theorems *)

Lemma split_last_slash_app (n t : string) :
  split_last_slash t = None -> split_last_slash (n +:+ String slash t) = Some (n, t).
Proof.
  intros Ht. induction n as [|c n IH]; simpl.
  - by rewrite Ht.
  - by rewrite IH.
Qed.

Lemma phase_suffix_no_slash ph : split_last_slash (phase_suffix ph) = None.
Proof. by destruct ph. Qed.

Lemma phase_of_suffix_correct ph : phase_of_suffix (phase_suffix ph) = Some ph.
Proof. by destruct ph. Qed.

(** The kind of phase [ph] of operation [name] parses back to
    [(name, ph)], whatever characters (slashes included) the name holds. *)
Theorem parse_type_async_type (name : string) (ph : phase) :
  parse_type (async_type name ph) = Some (name, ph).
Proof.
  unfold parse_type, async_type.
  rewrite split_last_slash_app by apply phase_suffix_no_slash.
  by rewrite phase_of_suffix_correct.
Qed.

(** Kinds are a correlation key: two kinds are equal only when they
    name the same operation and the same phase, so the three phases of one
    operation have pairwise distinct kinds. *)
Theorem async_type_inj (n1 n2 : string) (ph1 ph2 : phase) :
  async_type n1 ph1 = async_type n2 ph2 -> n1 = n2 /\ ph1 = ph2.
Proof.
  intros H. pose proof (parse_type_async_type n1 ph1) as H1.
  rewrite H, parse_type_async_type in H1. by simplify_eq.
Qed.

Lemma async_type_inj_witness :
  async_type "fetchStory" Done = async_type "fetchStory" Done /\
  ("fetchStory" = "fetchStory" /\ Done = Done).
Proof. split; [reflexivity|]. apply (async_type_inj "fetchStory" "fetchStory" Done Done). reflexivity. Defined.

(** The three creators of one operation build well-formed descriptors
    that carry the operation's name and phase in their kind and the same
    params in their payload. *)
Theorem asyncActionCreators_correlated {P R} (name : string) (p : P) (r : R) (e : string) :
  let c := asyncActionCreators (P:=P) (R:=R) name in
  parse_type (type_ (started c p)) = Some (name, Started) /\
  parse_type (type_ (done c p r)) = Some (name, Done) /\
  parse_type (type_ (failed c p e)) = Some (name, Failed) /\
  wf_async name (started c p) && wf_async name (done c p r) && wf_async name (failed c p e) = true /\
  payload_params (payload (done c p r)) = p /\ payload_params (payload (failed c p e)) = p.
Proof.
  cbn. rewrite !parse_type_async_type. unfold wf_async. cbn.
  by rewrite !bool_decide_eq_true_2.
Qed.

End Factory.
