(* ===== verification/Actions.v ===== *)
(** * The action vocabulary of the page

    [type ReduxAction = CounterAction | StoriesAction] (line 10 of
    [src/pages/redux.tsx]) and the creators the page imports from
    [store/counter/actions] and [store/stories/actions] (modelled from the
    spec: those files are not under [src/]).  A TypeScript union of action
    shapes becomes a closed tagged variant; [op_of], [phase_of] and
    [key_of] read the operation, the lifecycle phase and the correlation
    key of a descriptor, and [wf_action] says its kind is the one its
    creator prints. *)

From S2P Require Import Prelude Fsa.
From stdpp Require Import base list strings.
From Stdlib Require Import ZArith.
Import Descriptor Factory.

Module Counter.
(** [{ delta: number }] *)
Record Params := mkParams { delta : Z }.

#[export] Instance params_eq_dec : EqDecision Params.
Proof. solve_decision. Defined.

Definition increment : Params -> Action Params := actionCreator "increment".
Definition decrement : Params -> Action Params := actionCreator "decrement".
Definition incrementAsync : AsyncActionCreators Params Z := asyncActionCreators "incrementAsync".
Definition decrementAsync : AsyncActionCreators Params Z := asyncActionCreators "decrementAsync".

Inductive CounterAction :=
| CIncrement (a : Action Params)
| CDecrement (a : Action Params)
| CIncrementAsync (a : Action (AsyncPayload Params Z))
| CDecrementAsync (a : Action (AsyncPayload Params Z)).
End Counter.

Module Stories.
(** An entity returned by the remote data source. *)
Record Story := mkStory { story_id : Z; story_title : string }.

(** Params [{}] are the unit value; the result is a list of story ids. *)
Definition fetchTopStories : AsyncActionCreators unit (list Z) :=
  asyncActionCreators "fetchTopStories".
Definition fetchStory : AsyncActionCreators Z Story := asyncActionCreators "fetchStory".

Inductive StoriesAction :=
| SFetchTopStories (a : Action (AsyncPayload unit (list Z)))
| SFetchStory (a : Action (AsyncPayload Z Story)).
End Stories.

Import Counter Stories.

(** [type ReduxAction = CounterAction | StoriesAction] *)
Inductive ReduxAction :=
| RCounter (a : CounterAction)
| RStories (a : StoriesAction).

(** The logical operations of the page. *)
Inductive operation :=
| OpIncrement | OpDecrement | OpIncrementAsync | OpDecrementAsync
| OpFetchTopStories | OpFetchStory.

#[export] Instance operation_eq_dec : EqDecision operation.
Proof. solve_decision. Defined.

Definition op_name (o : operation) : string :=
  match o with
  | OpIncrement => "increment" | OpDecrement => "decrement"
  | OpIncrementAsync => "incrementAsync" | OpDecrementAsync => "decrementAsync"
  | OpFetchTopStories => "fetchTopStories" | OpFetchStory => "fetchStory"
  end.

Definition op_of (a : ReduxAction) : operation :=
  match a with
  | RCounter (CIncrement _) => OpIncrement
  | RCounter (CDecrement _) => OpDecrement
  | RCounter (CIncrementAsync _) => OpIncrementAsync
  | RCounter (CDecrementAsync _) => OpDecrementAsync
  | RStories (SFetchTopStories _) => OpFetchTopStories
  | RStories (SFetchStory _) => OpFetchStory
  end.

(** The phase of an asynchronous descriptor; [None] for a synchronous one. *)
Definition phase_of (a : ReduxAction) : option phase :=
  match a with
  | RCounter (CIncrement _) | RCounter (CDecrement _) => None
  | RCounter (CIncrementAsync x) | RCounter (CDecrementAsync x) => Some (payload_phase (payload x))
  | RStories (SFetchTopStories x) => Some (payload_phase (payload x))
  | RStories (SFetchStory x) => Some (payload_phase (payload x))
  end.

(** The [type] field of a descriptor. *)
Definition type_of (a : ReduxAction) : string :=
  match a with
  | RCounter (CIncrement x) | RCounter (CDecrement x) => type_ x
  | RCounter (CIncrementAsync x) | RCounter (CDecrementAsync x) => type_ x
  | RStories (SFetchTopStories x) => type_ x
  | RStories (SFetchStory x) => type_ x
  end.

(** The params that correlate the phases of one invocation. *)
Inductive corr_key :=
| KParams (p : Params)
| KId (id : Z)
| KUnit.

#[export] Instance corr_key_eq_dec : EqDecision corr_key.
Proof. solve_decision. Defined.

Definition key_of (a : ReduxAction) : corr_key :=
  match a with
  | RCounter (CIncrement x) | RCounter (CDecrement x) => KParams (payload x)
  | RCounter (CIncrementAsync x) | RCounter (CDecrementAsync x) => KParams (payload_params (payload x))
  | RStories (SFetchTopStories _) => KUnit
  | RStories (SFetchStory x) => KId (payload_params (payload x))
  end.

(** The kind a descriptor of operation [o] in phase [ph] must carry. *)
Definition expected_type (o : operation) (ph : option phase) : string :=
  match ph with Some p => async_type (op_name o) p | None => op_name o end.

Definition wf_action (a : ReduxAction) : bool :=
  bool_decide (type_of a = expected_type (op_of a) (phase_of a)).

(** Descriptors built by the creators are well formed. *)
Ltac solve_wf_action := unfold wf_action; cbn; apply bool_decide_eq_true_2; reflexivity.

