(* ===== verification/Store.v ===== *)
(** * The store and the event loop the page runs against

    The page only sees [dispatch] and [getState] of the Redux store created
    by [store/index] (not under [src/]; modelled from the spec, sections 4.2,
    5 and 6) and the host's [setTimeout], promises and remote calls.
    [Reducer] is the interface of the external reducer; [host] gathers what
    the environment decides (the outcome of each remote call, a fault raised
    by [setTimeout], a fault raised by a subscribed listener); [world] is the
    snapshot, the ordered log of dispatched descriptors, the task queue of
    the event loop, the clock and the errors that escaped.  Deferred work is
    defunctionalised: a task carries a job of a type [J] that the page
    defines, and the event loop is parametric in how a job runs.  The
    lemmas show which properties of a world each primitive keeps
    ([snapshot_inv], the clock), as hints of the
    database [js]. *)

From S2P Require Import Prelude Fsa Actions.
From stdpp Require Import base list strings relations.
From Stdlib Require Import ZArith.
Import Descriptor Counter Stories.
Open Scope js_scope.

(** The external reducer: the lifecycle machinery does not know its
    internals, only that it maps a snapshot and a descriptor to a snapshot. *)
Class Reducer (S : Type) := reducer : S -> ReduxAction -> S.

Module Store.

(** What the environment decides. *)
Record host := mkHost {
api_fetchStory : Z -> completion Story;
api_fetchTopStoryIds : completion (list Z);
setTimeout_fault : option string;
listener_fault : ReduxAction -> option string
}.

(** A task of the event loop: a timer due at a time, or the continuation
  of a settled promise ([t_due = None]). *)
Record task (J : Type) := mkTask { t_due : option Z; t_job : J }.
Arguments mkTask {J} _ _.
Arguments t_due {J} _.
Arguments t_job {J} _.

Record world (St J : Type) := mkWorld {
w_state : St;
w_log : list ReduxAction;
w_queue : list (task J);
w_clock : Z;
w_errors : list string
}.
Arguments mkWorld {St J} _ _ _ _ _.
Arguments w_state {St J} _.
Arguments w_log {St J} _.
Arguments w_queue {St J} _.
Arguments w_clock {St J} _.
Arguments w_errors {St J} _.

Section Ops.
Context {St J : Type} `{Reducer St}.
Variable h : host.

Definition set_queue (q : list (task J)) (w : world St J) : world St J :=
mkWorld (w_state w) (w_log w) q (w_clock w) (w_errors w).
Definition set_clock (c : Z) (w : world St J) : world St J :=
mkWorld (w_state w) (w_log w) (w_queue w) c (w_errors w).

(** A fresh store: process start on the server, or the state hydrated
from the server pass on the client. *)
Definition init_world (s0 : St) : world St J := mkWorld s0 [] [] 0%Z [].

(** [store.dispatch(action)]: the reducer replaces the snapshot, then
the subscribed listeners run; a listener that throws makes
[dispatch] throw after the snapshot was replaced. *)
Definition dispatch (a : ReduxAction) : js (world St J) unit :=
fun w =>
let w' := mkWorld (reducer (w_state w) a) (w_log w ++ [a]) (w_queue w)
                  (w_clock w) (w_errors w) in
match listener_fault h a with
| Some e => (Throw e, w')
| None => (Normal tt, w')
end.

Definition getState : js (world St J) St := fun w => (Normal (w_state w), w).

Definition enqueue (t : task J) (w : world St J) : world St J :=
set_queue (w_queue w ++ [t]) w.

(** [setTimeout(callback, delay)]: no cancellation is provided. *)
Definition setTimeout (j : J) (delay : Z) : js (world St J) unit :=
match setTimeout_fault h with
| Some e => js_throw e
| None => fun w => (Normal tt, enqueue (mkTask (Some (w_clock w + delay)%Z) j) w)
end.

(** [await p]: the rest of the async function runs on a later turn. *)
Definition await_then (j : J) : js (world St J) unit :=
js_modify (enqueue (mkTask None j)).

(** An exception that escaped a callback or rejected a promise nobody
handles. *)
Definition report (e : string) (w : world St J) : world St J :=
mkWorld (w_state w) (w_log w) (w_queue w) (w_clock w) (w_errors w ++ [e]).
End Ops.

Section EventLoop.
Context {St J : Type}.
(** How the page runs the job of a task. *)
Variable run_job : J -> js (world St J) unit.

Definition ready (w : world St J) (t : task J) : bool :=
match t_due t with None => true | Some d => (d <=? w_clock w)%Z end.

(** Run a task already taken off the queue: what it throws escapes. *)
Definition run_task (t : task J) (w : world St J) : world St J :=
js_exec (js_settle report (run_job (t_job t))) w.

(** One turn of the event loop: any ready task may run (promise
continuations and timers interleave in any order), or time passes. *)
Inductive loop_step : world St J -> world St J -> Prop :=
| loop_run w i t :
w_queue w !! i = Some t -> ready w t = true ->
loop_step w (run_task t (set_queue (delete i (w_queue w)) w))
| loop_tick w d :
(0 < d)%Z -> loop_step w (set_clock (w_clock w + d) w).

(** A deterministic schedule: run the oldest task, advancing the clock
to its due time when it is a timer. *)
Definition run_next (w : world St J) : world St J :=
match w_queue w with
| [] => w
| t :: q =>
  let c := match t_due t with Some d => Z.max d (w_clock w) | None => w_clock w end in
  run_task t (set_clock c (set_queue q w))
end.

Fixpoint drain (n : nat) (w : world St J) : world St J :=
match n with O => w | S n' => drain n' (run_next w) end.
End EventLoop.

(** ** Fixtures for concrete runs

  A snapshot that ignores the descriptors, and a host whose remote
  calls behave as in the scenarios of the spec: [fetchStory(42)]
  rejects with ["timeout"], the top stories are [1..7], and neither
  [setTimeout] nor a listener throws. *)
#[export] Instance unit_reducer : Reducer unit := fun s _ => s.

Definition sample_host : host :=
mkHost (fun id => if (id =? 42)%Z then Throw "timeout" else Normal (mkStory id "story"))
       (Normal [1; 2; 3; 4; 5; 6; 7]%Z) None (fun _ => None).

(** The same host with a subscribed listener that throws whenever a
  [done] descriptor is dispatched. *)
Definition done_listener_fault (a : ReduxAction) : option string :=
match phase_of a with Some Done => Some "listener failed" | _ => None end.

Definition faulty_listener_host : host :=
mkHost (api_fetchStory sample_host) (api_fetchTopStoryIds sample_host) None done_listener_fault.

(** ** Theorems on the store *)

(** The creators' descriptors are well formed, for the preservation
    lemmas of the page. *)
#[export] Hint Extern 1 (wf_action _ = true) => solve_wf_action : js.

(** The snapshot is the reducer folded over the log, from the snapshot
    [s0] the store was created with: it changes only through dispatched
    descriptors, each applied once, in order. *)
Definition snapshot_inv {St J} `{Reducer St} (s0 : St) (w : world St J) : Prop :=
  w_state w = foldl reducer s0 (w_log w).

Section Snapshot.
Context {St J : Type} `{Reducer St}.
Variable h : host.
Variable s0 : St.

Lemma dispatch_preserves_snapshot (a : ReduxAction) :
  preserves (snapshot_inv (J:=J) s0) (dispatch h a).
Proof.
  intros w Hw. unfold dispatch, snapshot_inv in *.
  destruct (listener_fault h a); cbn; by rewrite foldl_snoc, Hw.
Qed.

Lemma setTimeout_preserves_snapshot (j : J) d : preserves (snapshot_inv s0) (setTimeout h j d).
Proof. unfold setTimeout. intros w Hw. by destruct (setTimeout_fault h). Qed.

Lemma await_then_preserves_snapshot (j : J) : preserves (snapshot_inv s0) (await_then j).
Proof. by intros w Hw. Qed.

Lemma report_preserves_snapshot e (w : world St J) : snapshot_inv s0 w -> snapshot_inv s0 (report e w).
Proof. done. Qed.
End Snapshot.

#[export] Hint Resolve dispatch_preserves_snapshot setTimeout_preserves_snapshot
  await_then_preserves_snapshot report_preserves_snapshot : js.

(** The clock moves only when time passes, not through a primitive. *)
Section Clock.
Context {St J : Type} `{Reducer St}.
Variable h : host.
Variable c : Z.

Lemma dispatch_preserves_clock (a : ReduxAction) :
  preserves (fun w : world St J => w_clock w = c) (dispatch h a).
Proof. intros w Hw. unfold dispatch. by destruct (listener_fault h a). Qed.

Lemma setTimeout_preserves_clock (j : J) d :
  preserves (fun w : world St J => w_clock w = c) (setTimeout h j d).
Proof. unfold setTimeout. intros w Hw. by destruct (setTimeout_fault h). Qed.

Lemma await_then_preserves_clock (j : J) : preserves (fun w : world St J => w_clock w = c) (await_then j).
Proof. by intros w Hw. Qed.

Lemma report_preserves_clock e (w : world St J) : w_clock w = c -> w_clock (report e w) = c.
Proof. done. Qed.
End Clock.

#[export] Hint Resolve dispatch_preserves_clock setTimeout_preserves_clock
  await_then_preserves_clock report_preserves_clock : js.

Section StoreLemmas.
Context {St J : Type} `{Reducer St}.
Variable h : host.

Lemma dispatch_ok (a : ReduxAction) (w : world St J) :
listener_fault h a = None ->
dispatch h a w = (Normal tt, mkWorld (reducer (w_state w) a) (w_log w ++ [a])
                                   (w_queue w) (w_clock w) (w_errors w)).
Proof. intros Ha. unfold dispatch. by rewrite Ha. Qed.

Lemma dispatch_fault (a : ReduxAction) (w : world St J) e :
listener_fault h a = Some e ->
dispatch h a w = (Throw e, mkWorld (reducer (w_state w) a) (w_log w ++ [a])
                                 (w_queue w) (w_clock w) (w_errors w)).
Proof. intros Ha. unfold dispatch. by rewrite Ha. Qed.

(** The queue, clock and errors are untouched by a dispatch. *)
Lemma dispatch_frame (a : ReduxAction) (w : world St J) :
w_queue (js_exec (dispatch h a) w) = w_queue w /\
w_clock (js_exec (dispatch h a) w) = w_clock w /\
w_errors (js_exec (dispatch h a) w) = w_errors w.
Proof. unfold js_exec, dispatch. by destruct (listener_fault h a). Qed.

End StoreLemmas.

Section EventLoopLemmas.
Context {St J : Type}.
Variable run_job : J -> js (world St J) unit.
(** Jobs run to completion without scheduling further work. *)
Hypothesis run_job_queue :
forall j w, w_queue (js_exec (run_job j) w) = w_queue w.

Lemma run_task_queue t (w : world St J) : w_queue (run_task run_job t w) = w_queue w.
Proof.
unfold run_task, js_exec, js_settle. specialize (run_job_queue (t_job t) w).
unfold js_exec in run_job_queue. destruct (run_job (t_job t) w) as [[]] ; done.
Qed.

Lemma run_next_queue (w : world St J) : w_queue (run_next run_job w) = tail (w_queue w).
Proof. unfold run_next. destruct (w_queue w) eqn:E; [by rewrite E|]. by rewrite run_task_queue. Qed.

(** The deterministic schedule is a schedule of the event loop. *)
Lemma run_next_star (w : world St J) : rtc (loop_step run_job) w (run_next run_job w).
Proof.
unfold run_next. destruct (w_queue w) as [|t q] eqn:E; [done|].
set (c := match t_due t with Some d => Z.max d (w_clock w) | None => w_clock w end).
assert (Hc : (w_clock w <= c)%Z) by (subst c; destruct (t_due t); lia).
assert (Hr : ready (set_clock c w) t = true).
{ unfold ready, c. cbn. destruct (t_due t); [apply Z.leb_le; lia|done]. }
apply rtc_trans with (set_clock c w).
- destruct (Z.eq_dec c (w_clock w)) as [->|Hne].
+ destruct w; done.
+ apply rtc_once. pose proof (loop_tick run_job w (c - w_clock w)) as T.
  replace (w_clock w + (c - w_clock w))%Z with c in T by lia. apply T. lia.
- apply rtc_once. replace (set_clock c (set_queue q w))
  with (set_queue (delete 0 (w_queue (set_clock c w))) (set_clock c w))
  by (cbn; by rewrite E).
apply loop_run; [cbn; by rewrite E|done].
Qed.

Lemma drain_star n (w : world St J) : rtc (loop_step run_job) w (drain run_job n w).
Proof.
revert w. induction n as [|n IH]; intros w; [done|].
eapply rtc_trans; [apply run_next_star|apply IH].
Qed.

(** The event loop terminates: as many turns of the deterministic
schedule as there are pending tasks run every task and leave the
queue empty, and that schedule is a run of the event loop. *)
Theorem drain_terminates (w : world St J) :
w_queue (drain run_job (length (w_queue w)) w) = [] /\
rtc (loop_step run_job) w (drain run_job (length (w_queue w)) w).
Proof.
split; [|apply drain_star].
remember (length (w_queue w)) as n eqn:En. revert w En.
induction n as [|n IH]; intros w En; cbn.
- by destruct (w_queue w).
- apply IH. rewrite run_next_queue. destruct (w_queue w); cbn in *; lia.
Qed.
End EventLoopLemmas.

Lemma drain_terminates_witness :
let w := mkWorld tt [] [mkTask (Some 1000%Z) tt; mkTask None tt] 0%Z [] in
w_queue (drain (fun (_ : unit) => js_ret (W:=world unit unit) tt) (length (w_queue w)) w) = [].
Proof.
apply (drain_terminates (fun (_ : unit) => js_ret (W:=world unit unit) tt)).
intros j w. reflexivity.
Defined.

End Store.
