(* ===== verification/Scheduler.v ===== *)
(** * The host's order of timers

    [Store.loop_step] lets any ready task run.  A browser or Node host is
    more constrained for timers: among the timers whose delay has elapsed,
    the one with the earliest due time fires first, and timers with equal
    due times fire in the order they were scheduled.  The moment a remote
    call settles is the network's choice, so the continuation of an
    [await] may still run at any turn.  Module [Scheduler] states this
    order ([next_timer], [host_step]; modelled from the spec, section 9: "a
    scheduled task with a fire time", no cancellation) and shows that it is
    one of the schedules [loop_step] allows, and that on a queue whose
    timers are sorted by due time the next timer is the first one
    scheduled. *)

From S2P Require Import Prelude Fsa Actions Store.
From stdpp Require Import base list strings relations sorting.
From Stdlib Require Import ZArith.
Import Store.
Open Scope js_scope.

Module Scheduler.

Section Host.
Context {St J : Type}.
Variable run_job : J -> js (world St J) unit.

(** The due times of the timers of a queue, in queue order. *)
Definition timer_dues (q : list (task J)) : list Z := omap t_due q.

(** Scan [q] from position [i] with the best timer found so far: a timer
    replaces it only when due strictly earlier. *)
Fixpoint next_timer_from (i : nat) (q : list (task J)) (best : option (nat * Z)) : option (nat * Z) :=
  match q with
  | [] => best
  | t :: q' =>
      next_timer_from (S i) q'
        match t_due t, best with
        | Some d, Some (_, bd) => if (d <? bd)%Z then Some (i, d) else best
        | Some d, None => Some (i, d)
        | None, _ => best
        end
  end.

(** The position of the timer the host fires next: the earliest due
    time, the first scheduled among equal ones. *)
Definition next_timer (q : list (task J)) : option nat := fst <$> next_timer_from 0 q None.

(** One turn of the host. *)
Inductive host_step : world St J -> world St J -> Prop :=
| host_settle w i t :
    w_queue w !! i = Some t -> t_due t = None ->
    host_step w (run_task run_job t (set_queue (delete i (w_queue w)) w))
| host_timer w i t :
    next_timer (w_queue w) = Some i -> w_queue w !! i = Some t -> ready w t = true ->
    host_step w (run_task run_job t (set_queue (delete i (w_queue w)) w))
| host_tick w d :
    (0 < d)%Z -> host_step w (set_clock (w_clock w + d) w).
End Host.

(** ** Lemmas *)

Section HostLemmas.
Context {St J : Type}.
Variable run_job : J -> js (world St J) unit.

(** The host's order is one of the schedules of the event loop. *)
Lemma host_step_loop_step (w w' : world St J) :
  host_step run_job w w' -> loop_step run_job w w'.
Proof.
  destruct 1 as [w i t Hi Hd|w i t _ Hi Hr|w d Hd].
  - apply (loop_run _ w i t); [done|]. unfold ready. by rewrite Hd.
  - by apply (loop_run _ w i t).
  - by apply loop_tick.
Qed.

Lemma host_steps_loop_steps (w w' : world St J) :
  rtc (host_step run_job) w w' -> rtc (loop_step run_job) w w'.
Proof. induction 1 as [|x y z Hxy _ IH]; [done|]. eapply rtc_l; [by apply host_step_loop_step|exact IH]. Qed.
End HostLemmas.

Section Sorted.
Context {J : Type}.

(** A best candidate due no later than every timer left keeps its place. *)
Lemma next_timer_from_keep (i j : nat) (bd : Z) (q : list (task J)) :
  Forall (fun d => bd <= d)%Z (timer_dues q) ->
  next_timer_from i q (Some (j, bd)) = Some (j, bd).
Proof.
  revert i. induction q as [|t q IH]; intros i Hq; [done|]. cbn.
  unfold timer_dues in Hq. destruct (t_due t) as [d|] eqn:Ed; cbn in Hq; rewrite ?Ed in Hq.
  - apply Forall_cons in Hq as [Hd Hq].
    destruct (Z.ltb_spec d bd); [lia|]. by apply IH.
  - by apply IH.
Qed.

(** On a queue whose timers are sorted by due time, the next timer is
    the first timer of the queue. *)
Lemma next_timer_from_sorted (i : nat) (q : list (task J)) :
  StronglySorted Z.le (timer_dues q) ->
  next_timer_from i q None =
    (fun '(k, t) => (i + k, default 0%Z (t_due t))) <$> list_find (fun t => is_Some (t_due t)) q.
Proof.
  revert i. induction q as [|t q IH]; intros i Hs; [done|]. cbn.
  unfold timer_dues in Hs. destruct (t_due t) as [d|] eqn:Ed; cbn in Hs; rewrite ?Ed in Hs.
  - rewrite decide_True by done. cbn. rewrite Ed, Nat.add_0_r.
    apply StronglySorted_inv in Hs as [_ Hall].
    by apply next_timer_from_keep.
  - rewrite decide_False by (intros [? ?]; discriminate).
    rewrite IH by done. destruct (list_find _ q) as [[k t']|]; cbn; [|done].
    do 2 f_equal. lia.
Qed.

Lemma next_timer_sorted (q : list (task J)) :
  StronglySorted Z.le (timer_dues q) ->
  next_timer q = fst <$> list_find (fun t => is_Some (t_due t)) q.
Proof.
  intros Hs. unfold next_timer. rewrite next_timer_from_sorted by done.
  by destruct (list_find _ q) as [[k t]|].
Qed.
End Sorted.

End Scheduler.
