(* ===== verification/Dispatcher.v ===== *)
(** * The action dispatcher of the page: [class ReduxActionDispatcher]

    Lines 12-86 of [src/pages/redux.tsx].  Each method is one definition;
    the part of an [async] method after its [await], and the callback handed
    to [setTimeout], are deferred jobs ([djob]) that the event loop runs on a
    later turn.  The constructor binds [incrementAsync] and [decrementAsync]
    to the instance and nothing else: [invoke] models a call through the
    instance ([actions.m(...)]) and a detached call ([const f = actions.m;
    f(...)]), where [this] is [undefined] unless the method was bound.
    The page embeds [djob] into its own job type through [JobOf]. *)

From S2P Require Import Prelude Fsa Actions Store.
From stdpp Require Import base list strings.
From Stdlib Require Import ZArith.
Import Descriptor Factory Counter Stories Store.
Open Scope js_scope.

(** How a component's deferred jobs embed into the page's job type. *)
Class JobOf (A J : Type) := job_of : A -> J.

Module Dispatcher.

(** The closures the dispatcher leaves to the event loop. *)
Inductive djob :=
| IncrementAsyncTimer (params : Params)   (* the callback of lines 29-36 *)
| DecrementAsyncTimer (params : Params)   (* the callback of lines 50-57 *)
| FetchStoryResume (id : Z).              (* lines 70-84, after the await *)

(** The public methods of the class. *)
Inductive method := MIncrement | MDecrement | MIncrementAsync | MDecrementAsync | MFetchStoryAsync.

#[export] Instance method_eq_dec : EqDecision method.
Proof. solve_decision. Defined.

(** A call of a method with its arguments. *)
Inductive call :=
| CallIncrement (delta : Z)
| CallDecrement (delta : Z)
| CallIncrementAsync
| CallDecrementAsync
| CallFetchStoryAsync (id : Z).

Definition method_of (c : call) : method :=
  match c with
  | CallIncrement _ => MIncrement | CallDecrement _ => MDecrement
  | CallIncrementAsync => MIncrementAsync | CallDecrementAsync => MDecrementAsync
  | CallFetchStoryAsync _ => MFetchStoryAsync
  end.

Definition is_async_method (m : method) : bool :=
  match m with MIncrement | MDecrement => false | _ => true end.

(** An instance: [this.dispatch] is the store's dispatch; [rad_bound] are
    the methods the constructor replaced by bound copies. *)
Record ReduxActionDispatcher := mkDispatcher { rad_bound : list method }.

(** [constructor(dispatch)], lines 14-18. *)
Definition new_ReduxActionDispatcher : ReduxActionDispatcher :=
  mkDispatcher [MIncrementAsync; MDecrementAsync].

(** What a method reading [this.dispatch] throws when [this] is undefined. *)
Definition this_undefined_error : string :=
  "Cannot read properties of undefined (reading 'dispatch')".

Section Methods.
Context {St J : Type} `{Reducer St} `{JobOf djob J}.
Variable h : host.

Abbreviation M := (js (world St J)).

(** [increment(delta)], lines 19-21. *)
Definition increment (delta : Z) : M unit :=
  dispatch h (RCounter (CIncrement (Counter.increment (mkParams delta)))).

(** [decrement(delta)], lines 22-24. *)
Definition decrement (delta : Z) : M unit :=
  dispatch h (RCounter (CDecrement (Counter.decrement (mkParams delta)))).

(** [incrementAsync()], lines 25-45, up to its return. *)
Definition incrementAsync : M unit :=
  let params := mkParams 1 in
  dispatch h (RCounter (CIncrementAsync (started Counter.incrementAsync params))) ;;
  js_try (setTimeout h (job_of (IncrementAsyncTimer params)) 1000)
    (fun e => dispatch h (RCounter (CIncrementAsync (failed Counter.incrementAsync params e)))).

(** The timer callback of [incrementAsync], lines 29-36. *)
Definition incrementAsync_timer (params : Params) : M unit :=
  dispatch h (RCounter (CIncrementAsync (done Counter.incrementAsync params (delta params)))).

(** [decrementAsync()], lines 46-66, up to its return. *)
Definition decrementAsync : M unit :=
  let params := mkParams 1 in
  dispatch h (RCounter (CDecrementAsync (started Counter.decrementAsync params))) ;;
  js_try (setTimeout h (job_of (DecrementAsyncTimer params)) 1000)
    (fun e => dispatch h (RCounter (CDecrementAsync (failed Counter.decrementAsync params e)))).

(** The timer callback of [decrementAsync], lines 50-57. *)
Definition decrementAsync_timer (params : Params) : M unit :=
  dispatch h (RCounter (CDecrementAsync (done Counter.decrementAsync params (delta params)))).

(** [fetchStoryAsync(id)], lines 67-69: [started], then the call to
    [API.fetchStory] whose promise is awaited. *)
Definition fetchStoryAsync (id : Z) : M unit :=
  dispatch h (RStories (SFetchStory (started fetchStory id))) ;;
  await_then (job_of (FetchStoryResume id)).

(** Lines 70-84, when the awaited promise has settled. *)
Definition fetchStoryAsync_resume (id : Z) : M unit :=
  js_try
    (let* story := js_lift (api_fetchStory h id) in
     dispatch h (RStories (SFetchStory (done fetchStory id story))))
    (fun e => dispatch h (RStories (SFetchStory (failed fetchStory id e)))).

Definition run_djob (j : djob) : M unit :=
  match j with
  | IncrementAsyncTimer p => incrementAsync_timer p
  | DecrementAsyncTimer p => decrementAsync_timer p
  | FetchStoryResume id => fetchStoryAsync_resume id
  end.

Definition method_body (c : call) : M unit :=
  match c with
  | CallIncrement d => increment d
  | CallDecrement d => decrement d
  | CallIncrementAsync => incrementAsync
  | CallDecrementAsync => decrementAsync
  | CallFetchStoryAsync id => fetchStoryAsync id
  end.

(** Calling a method of [obj], through the instance ([detached = false])
    or detached from it.  A detached method that was not bound runs with
    [this] undefined and throws on [this.dispatch]; the body of an async
    method never throws to its caller: the promise it returns rejects,
    and nobody handles it. *)
Definition invoke (obj : ReduxActionDispatcher) (c : call) (detached : bool) : M unit :=
  let body :=
    if negb detached || bool_decide (method_of c ∈ rad_bound obj)
    then method_body c else js_throw this_undefined_error in
  if is_async_method (method_of c) then js_settle report body else body.
End Methods.

(** The dispatcher's jobs as the whole job type, for concrete runs. *)
#[local] Instance djob_self : JobOf djob djob := fun j => j.

(** ** Theorems *)

Section Quiet.
Context {St J : Type} `{Reducer St} `{JobOf djob J}.
Variable h : host.
(** No subscribed listener throws (the spec's well-behaved store). *)
Hypothesis quiet : forall a, listener_fault h a = None.

(** The shape shared by [incrementAsync] and [decrementAsync]: dispatch
    [started], then schedule the callback, dispatching [failed] if the
    scheduling itself throws. *)
Lemma started_then_schedule (wrap : Action (AsyncPayload Params Z) -> ReduxAction)
      (c : AsyncActionCreators Params Z) (p : Params) (j : J) (w : world St J) :
  let r := (dispatch h (wrap (started c p)) ;;
            js_try (setTimeout h j 1000) (fun e => dispatch h (wrap (failed c p e)))) w in
  fst r = Normal tt /\
  w_log (snd r) = w_log w ++ wrap (started c p) ::
    match setTimeout_fault h with Some e => [wrap (failed c p e)] | None => [] end /\
  w_queue (snd r) = w_queue w ++
    match setTimeout_fault h with Some _ => [] | None => [mkTask (Some (w_clock w + 1000)%Z) j] end /\
  w_errors (snd r) = w_errors w.
Proof.
  cbn. unfold dispatch, setTimeout, js_try, js_bind, js_throw.
  rewrite !quiet. destruct (setTimeout_fault h); cbn; rewrite ?quiet; cbn;
    rewrite <- ?app_assoc, ?app_nil_r; repeat split.
Qed.

(** The effect of [incrementAsync] on the world. *)
Lemma incrementAsync_effect (w : world St J) :
  let p := mkParams 1 in
  let r := incrementAsync h w in
  fst r = Normal tt /\
  w_log (snd r) = w_log w ++ RCounter (CIncrementAsync (started Counter.incrementAsync p)) ::
    match setTimeout_fault h with
    | Some e => [RCounter (CIncrementAsync (failed Counter.incrementAsync p e))]
    | None => [] end /\
  w_queue (snd r) = w_queue w ++
    match setTimeout_fault h with
    | Some _ => []
    | None => [mkTask (Some (w_clock w + 1000)%Z) (job_of (IncrementAsyncTimer p))] end /\
  w_errors (snd r) = w_errors w.
Proof. apply (started_then_schedule (fun a => RCounter (CIncrementAsync a))). Qed.

(** The effect of [decrementAsync] on the world. *)
Lemma decrementAsync_effect (w : world St J) :
  let p := mkParams 1 in
  let r := decrementAsync h w in
  fst r = Normal tt /\
  w_log (snd r) = w_log w ++ RCounter (CDecrementAsync (started Counter.decrementAsync p)) ::
    match setTimeout_fault h with
    | Some e => [RCounter (CDecrementAsync (failed Counter.decrementAsync p e))]
    | None => [] end /\
  w_queue (snd r) = w_queue w ++
    match setTimeout_fault h with
    | Some _ => []
    | None => [mkTask (Some (w_clock w + 1000)%Z) (job_of (DecrementAsyncTimer p))] end /\
  w_errors (snd r) = w_errors w.
Proof. apply (started_then_schedule (fun a => RCounter (CDecrementAsync a))). Qed.

(** The effect of [fetchStoryAsync(id)] up to its [await], and of its
    continuation. *)
Lemma fetchStoryAsync_effect (id : Z) (w : world St J) :
  let r := fetchStoryAsync h id w in
  let r' := fetchStoryAsync_resume h id w in
  fst r = Normal tt /\
  w_log (snd r) = w_log w ++ [RStories (SFetchStory (started fetchStory id))] /\
  w_queue (snd r) = w_queue w ++ [mkTask None (job_of (FetchStoryResume id))] /\
  fst r' = Normal tt /\
  w_log (snd r') = w_log w ++
    [match api_fetchStory h id with
     | Normal s => RStories (SFetchStory (done fetchStory id s))
     | Throw e => RStories (SFetchStory (failed fetchStory id e))
     end] /\
  w_queue (snd r') = w_queue w.
Proof.
  cbn. unfold fetchStoryAsync, fetchStoryAsync_resume, dispatch, await_then,
    js_try, js_bind, js_lift, js_modify.
  rewrite !quiet. cbn. destruct (api_fetchStory h id); cbn; rewrite quiet; cbn;
    repeat split.
Qed.

(** C3: [incrementAsync] dispatches [started({delta: 1})] and, when the
    timer is scheduled, leaves exactly one task due 1000 ms later; when
    [setTimeout] throws, it dispatches [failed] with the message instead
    and schedules nothing.  It returns normally either way. *)
Theorem incrementAsync_spec (w : world St J) :
  let p := mkParams 1 in
  let r := incrementAsync h w in
  fst r = Normal tt /\
  w_log (snd r) = w_log w ++ RCounter (CIncrementAsync (started Counter.incrementAsync p)) ::
    match setTimeout_fault h with
    | Some e => [RCounter (CIncrementAsync (failed Counter.incrementAsync p e))]
    | None => [] end /\
  w_queue (snd r) = w_queue w ++
    match setTimeout_fault h with
    | Some _ => []
    | None => [mkTask (Some (w_clock w + 1000)%Z) (job_of (IncrementAsyncTimer p))] end /\
  w_errors (snd r) = w_errors w.
Proof. exact (incrementAsync_effect w). Qed.

(** C11: [decrementAsync] has the lifecycle of [incrementAsync] with its
    own descriptors: it dispatches [decrementAsync.started({delta: 1})]
    and schedules one task due 1000 ms later running its own callback, or,
    when [setTimeout] throws, dispatches [decrementAsync.failed] with the
    message and schedules nothing; it returns normally either way. *)
Theorem decrementAsync_spec (w : world St J) :
  let p := mkParams 1 in
  let r := decrementAsync h w in
  fst r = Normal tt /\
  w_log (snd r) = w_log w ++ RCounter (CDecrementAsync (started Counter.decrementAsync p)) ::
    match setTimeout_fault h with
    | Some e => [RCounter (CDecrementAsync (failed Counter.decrementAsync p e))]
    | None => [] end /\
  w_queue (snd r) = w_queue w ++
    match setTimeout_fault h with
    | Some _ => []
    | None => [mkTask (Some (w_clock w + 1000)%Z) (job_of (DecrementAsyncTimer p))] end /\
  w_errors (snd r) = w_errors w.
Proof. exact (decrementAsync_effect w). Qed.

(** C4: [fetchStoryAsync(id)] dispatches [started(id)] and leaves the
    continuation of its [await] as one task; when that continuation runs
    it dispatches exactly one terminal descriptor: [done] with the story
    if the remote call resolved, [failed] with the message if it
    rejected. *)
Theorem fetchStoryAsync_spec (id : Z) (w : world St J) :
  let r := fetchStoryAsync h id w in
  let r' := fetchStoryAsync_resume h id w in
  fst r = Normal tt /\
  w_log (snd r) = w_log w ++ [RStories (SFetchStory (started fetchStory id))] /\
  w_queue (snd r) = w_queue w ++ [mkTask None (job_of (FetchStoryResume id))] /\
  fst r' = Normal tt /\
  w_log (snd r') = w_log w ++
    [match api_fetchStory h id with
     | Normal s => RStories (SFetchStory (done fetchStory id s))
     | Throw e => RStories (SFetchStory (failed fetchStory id e))
     end] /\
  w_queue (snd r') = w_queue w.
Proof. exact (fetchStoryAsync_effect id w). Qed.
End Quiet.

Lemma incrementAsync_spec_witness :
  (forall a, listener_fault sample_host a = None) /\
  w_queue (snd (incrementAsync (St:=unit) (J:=djob) sample_host (init_world tt))) =
    [mkTask (Some 1000%Z) (IncrementAsyncTimer (mkParams 1))].
Proof.
  split; [reflexivity|].
  destruct (incrementAsync_spec (St:=unit) (J:=djob) sample_host (fun _ => eq_refl) (init_world tt))
    as (_ & _ & Hq & _).
  exact Hq.
Defined.

Lemma decrementAsync_spec_witness :
  (forall a, listener_fault sample_host a = None) /\
  w_log (snd (decrementAsync (St:=unit) (J:=djob) sample_host (init_world tt))) =
    [RCounter (CDecrementAsync (started Counter.decrementAsync (mkParams 1)))].
Proof.
  split; [reflexivity|].
  destruct (decrementAsync_spec (St:=unit) (J:=djob) sample_host (fun _ => eq_refl) (init_world tt))
    as (_ & Hl & _).
  exact Hl.
Defined.

Lemma fetchStoryAsync_spec_witness :
  (forall a, listener_fault sample_host a = None) /\
  w_log (snd (fetchStoryAsync_resume (St:=unit) (J:=djob) sample_host 42%Z (init_world tt))) =
    [RStories (SFetchStory (failed fetchStory 42%Z "timeout"))].
Proof.
  split; [reflexivity|].
  destruct (fetchStoryAsync_spec (St:=unit) (J:=djob) sample_host (fun _ => eq_refl) 42%Z (init_world tt))
    as (_ & _ & _ & _ & Hl & _).
  exact Hl.
Defined.

Section Faults.
Context {St J : Type} `{Reducer St} `{JobOf djob J}.
Variable h : host.

(** C6: a fault raised inside the timer callback of [incrementAsync] is
    not caught by the [try] around [setTimeout] (lines 28-44): the
    [done] descriptor is dispatched, the fault escapes as an uncaught
    error, and no [failed] descriptor is ever dispatched. *)
Theorem incrementAsync_timer_fault_escapes (p : Params) (e : string) (w : world St J) :
  listener_fault h (RCounter (CIncrementAsync (done Counter.incrementAsync p (delta p)))) = Some e ->
  let w' := js_exec (js_settle report (run_djob h (IncrementAsyncTimer p))) w in
  w_log w' = w_log w ++ [RCounter (CIncrementAsync (done Counter.incrementAsync p (delta p)))] /\
  w_errors w' = w_errors w ++ [e].
Proof.
  intros Hf. cbn. unfold incrementAsync_timer, js_exec, js_settle.
  by rewrite dispatch_fault with (e := e).
Qed.

(** C5: the [done] dispatch of [fetchStoryAsync] sits inside its [try]
    (lines 69-84): when a listener throws while [done] is dispatched,
    the [catch] dispatches [failed] as well, so one invocation produces
    two terminal descriptors. *)
Theorem fetchStoryAsync_done_fault_two_terminals (id : Z) (s : Story) (e : string) (w : world St J) :
  api_fetchStory h id = Normal s ->
  listener_fault h (RStories (SFetchStory (done fetchStory id s))) = Some e ->
  listener_fault h (RStories (SFetchStory (failed fetchStory id e))) = None ->
  let r := fetchStoryAsync_resume h id w in
  fst r = Normal tt /\
  w_log (snd r) = w_log w ++ [RStories (SFetchStory (done fetchStory id s));
                              RStories (SFetchStory (failed fetchStory id e))].
Proof.
  intros Ha Hd Hf. cbn. unfold fetchStoryAsync_resume, js_try, js_bind, js_lift.
  rewrite Ha, dispatch_fault with (e := e) by done.
  rewrite dispatch_ok by done. cbn. by rewrite <- app_assoc.
Qed.

(** C10: the constructor binds only [incrementAsync] and
    [decrementAsync] (lines 14-18).  Called detached from the instance,
    these two behave as through the instance; [increment] and
    [decrement] throw a [TypeError] to their caller, and
    [fetchStoryAsync] returns a rejected promise; none of the three
    dispatches anything. *)
Theorem invoke_detached (c : call) (w : world St J) :
  invoke h new_ReduxActionDispatcher c true w =
  match method_of c with
  | MIncrementAsync | MDecrementAsync => invoke h new_ReduxActionDispatcher c false w
  | MIncrement | MDecrement => (Throw this_undefined_error, w)
  | MFetchStoryAsync => (Normal tt, report this_undefined_error w)
  end.
Proof. by destruct c. Qed.
(** C15: [increment(delta)] and [decrement(delta)] (lines 19-24), called
    through an instance, dispatch exactly one descriptor,
    [increment({delta})] or [decrement({delta})], carrying the argument
    unchanged, and schedule nothing; being synchronous methods, they let
    an exception a listener throws reach their caller, after the snapshot
    was replaced and the descriptor logged. *)
Theorem sync_methods_spec (obj : ReduxActionDispatcher) (d : Z) (w : world St J) :
  let inc := RCounter (CIncrement (Counter.increment (mkParams d))) in
  let dec := RCounter (CDecrement (Counter.decrement (mkParams d))) in
  invoke h obj (CallIncrement d) false w =
    (match listener_fault h inc with Some e => Throw e | None => Normal tt end,
     mkWorld (reducer (w_state w) inc) (w_log w ++ [inc]) (w_queue w) (w_clock w) (w_errors w)) /\
  invoke h obj (CallDecrement d) false w =
    (match listener_fault h dec with Some e => Throw e | None => Normal tt end,
     mkWorld (reducer (w_state w) dec) (w_log w ++ [dec]) (w_queue w) (w_clock w) (w_errors w)).
Proof.
  cbn. unfold increment, decrement, dispatch.
  split; by destruct (listener_fault h _).
Qed.
(** C18: the [started] dispatch of each async method sits outside its
    [try] (lines 27, 48, 68): when a listener throws while [started] is
    dispatched, the method's body stops there: [started] is logged,
    nothing is handed to a timer or awaited, no terminal descriptor will
    ever follow, and the exception rejects the method's promise, reported
    as unhandled; the caller itself sees a normal return. *)
Theorem started_fault_leaves_open (c : call) (a : ReduxAction) (e : string) (w : world St J) :
  match c with
  | CallIncrementAsync => a = RCounter (CIncrementAsync (started Counter.incrementAsync (mkParams 1)))
  | CallDecrementAsync => a = RCounter (CDecrementAsync (started Counter.decrementAsync (mkParams 1)))
  | CallFetchStoryAsync id => a = RStories (SFetchStory (started fetchStory id))
  | _ => False
  end ->
  listener_fault h a = Some e ->
  let r := invoke h new_ReduxActionDispatcher c false w in
  fst r = Normal tt /\ w_log (snd r) = w_log w ++ [a] /\
  w_queue (snd r) = w_queue w /\ w_errors (snd r) = w_errors w ++ [e].
Proof.
  intros Hc Hf. destruct c; try contradiction; subst a; cbn;
    unfold incrementAsync, decrementAsync, fetchStoryAsync, js_settle, js_bind, dispatch;
    rewrite Hf; cbn; repeat split.
Qed.
End Faults.

Lemma incrementAsync_timer_fault_escapes_witness :
  listener_fault faulty_listener_host
    (RCounter (CIncrementAsync (done Counter.incrementAsync (mkParams 1) 1%Z))) = Some "listener failed" /\
  w_errors (js_exec (js_settle report (run_djob (St:=unit) (J:=djob) faulty_listener_host
                                         (IncrementAsyncTimer (mkParams 1)))) (init_world tt)) =
    ["listener failed"].
Proof.
  split; [reflexivity|].
  exact (proj2 (incrementAsync_timer_fault_escapes (St:=unit) (J:=djob) faulty_listener_host
                  (mkParams 1) "listener failed" (init_world tt) eq_refl)).
Defined.

Lemma fetchStoryAsync_done_fault_two_terminals_witness :
  api_fetchStory faulty_listener_host 7%Z = Normal (mkStory 7 "story") /\
  w_log (snd (fetchStoryAsync_resume (St:=unit) (J:=djob) faulty_listener_host 7%Z (init_world tt))) =
    [RStories (SFetchStory (done fetchStory 7%Z (mkStory 7 "story")));
     RStories (SFetchStory (failed fetchStory 7%Z "listener failed"))].
Proof.
  split; [reflexivity|].
  exact (proj2 (fetchStoryAsync_done_fault_two_terminals (St:=unit) (J:=djob) faulty_listener_host
                  7%Z (mkStory 7 "story") "listener failed" (init_world tt) eq_refl eq_refl eq_refl)).
Defined.

(** A listener that throws whenever a [started] descriptor is dispatched. *)
Definition started_listener_fault (a : ReduxAction) : option string :=
  match phase_of a with Some Started => Some "listener failed" | _ => None end.

Lemma started_fault_leaves_open_witness :
  listener_fault (mkHost (api_fetchStory sample_host) (api_fetchTopStoryIds sample_host) None
                    started_listener_fault)
    (RStories (SFetchStory (started fetchStory 7%Z))) = Some "listener failed" /\
  w_queue (snd (invoke (St:=unit) (J:=djob)
                  (mkHost (api_fetchStory sample_host) (api_fetchTopStoryIds sample_host) None
                     started_listener_fault)
                  new_ReduxActionDispatcher (CallFetchStoryAsync 7) false (init_world tt))) = [].
Proof.
  split; [reflexivity|].
  exact (proj1 (proj2 (proj2 (started_fault_leaves_open (St:=unit) (J:=djob)
    (mkHost (api_fetchStory sample_host) (api_fetchTopStoryIds sample_host) None started_listener_fault)
    (CallFetchStoryAsync 7) _ "listener failed" (init_world tt) eq_refl eq_refl)))).
Defined.

End Dispatcher.
