(* ===== verification/Bootstrap.v ===== *)
(** * The bootstrap hook of the page: [enhance]

    Lines 101-112 of [src/pages/redux.tsx]: the async function handed to
    [initialProps], run before a render with [{store, isServer}].  On the
    server it first dispatches [increment({delta: 5})]; then, on both legs,
    it awaits [API.fetchTopStoryIds()], keeps the first five ids
    ([slice(0, 5)], stdpp's [take 5]) and dispatches one
    [fetchTopStories.done({params: {}, result: ids})].  The part after the
    [await] is the job [EnhanceResume]; nothing catches a failure of the
    remote call, so it rejects the promise of the hook. *)

From S2P Require Import Prelude Fsa Actions Store Dispatcher.
From stdpp Require Import base list strings.
From Stdlib Require Import ZArith.
Import Descriptor Factory Counter Stories Store.
Open Scope js_scope.

Module Bootstrap.

(** The continuation of the [await] at line 105. *)
Inductive bjob := EnhanceResume.

Section Enhance.
Context {St J : Type} `{Reducer St} `{JobOf bjob J}.
Variable h : host.

(** Lines 101-105, up to the [await]; as the body of an async function
    its exceptions reject the promise it returns. *)
Definition enhance (isServer : bool) : js (world St J) unit :=
  js_settle report
    ((if isServer then dispatch h (RCounter (CIncrement (Counter.increment (mkParams 5))))
      else js_ret tt) ;;
     await_then (job_of EnhanceResume)).

(** Lines 105-111, once [API.fetchTopStoryIds()] has settled. *)
Definition enhance_resume : js (world St J) unit :=
  let* ids := js_lift (api_fetchTopStoryIds h) in
  dispatch h (RStories (SFetchTopStories (done fetchTopStories tt (take 5 ids)))).

Definition run_bjob (j : bjob) : js (world St J) unit :=
  match j with EnhanceResume => enhance_resume end.
End Enhance.

(** The hook's job as the whole job type, for concrete runs. *)
#[local] Instance bjob_self : JobOf bjob bjob := fun j => j.

(** ** Theorems *)

Section Quiet.
Context {St J : Type} `{Reducer St} `{JobOf bjob J}.
Variable h : host.
Hypothesis quiet : forall a, listener_fault h a = None.

(** The effect of the hook up to its [await]. *)
Lemma enhance_effect (isServer : bool) (w : world St J) :
  let r := enhance h isServer w in
  fst r = Normal tt /\
  w_log (snd r) = w_log w ++
    (if isServer then [RCounter (CIncrement (Counter.increment (mkParams 5)))] else []) /\
  w_queue (snd r) = w_queue w ++ [mkTask None (job_of EnhanceResume)] /\
  w_errors (snd r) = w_errors w.
Proof.
  unfold enhance, js_settle, js_bind, await_then, js_modify, dispatch, js_ret.
  destruct isServer; cbn; rewrite ?quiet; cbn; rewrite ?app_nil_r; repeat split.
Qed.

(** The effect of the continuation of the hook, run by the event loop. *)
Lemma enhance_resume_effect (w : world St J) :
  let w' := js_exec (js_settle report (run_bjob h EnhanceResume)) w in
  match api_fetchTopStoryIds h with
  | Normal ids =>
      w_log w' = w_log w ++ [RStories (SFetchTopStories (done fetchTopStories tt (take 5 ids)))] /\
      w_errors w' = w_errors w
  | Throw e => w_log w' = w_log w /\ w_errors w' = w_errors w ++ [e]
  end.
Proof.
  cbn. unfold enhance_resume, js_exec, js_settle, js_bind, js_lift, dispatch.
  destruct (api_fetchTopStoryIds h); cbn; rewrite ?quiet; cbn; repeat split.
Qed.

(** C7: up to its [await], the hook dispatches [increment({delta: 5})]
    on the server leg and nothing on the client leg, and leaves its
    continuation as one task. *)
Theorem enhance_spec (isServer : bool) (w : world St J) :
  let r := enhance h isServer w in
  fst r = Normal tt /\
  w_log (snd r) = w_log w ++
    (if isServer then [RCounter (CIncrement (Counter.increment (mkParams 5)))] else []) /\
  w_queue (snd r) = w_queue w ++ [mkTask None (job_of EnhanceResume)] /\
  w_errors (snd r) = w_errors w.
Proof. exact (enhance_effect isServer w). Qed.

(** C8: when the remote call resolves, the continuation dispatches one
    [fetchTopStories.done] with empty params and the ids truncated to
    the first five; when it rejects, nothing is dispatched and the
    failure escapes uncaught (it is not turned into [failed]). *)
Theorem enhance_resume_spec (w : world St J) :
  let w' := js_exec (js_settle report (run_bjob h EnhanceResume)) w in
  match api_fetchTopStoryIds h with
  | Normal ids =>
      w_log w' = w_log w ++ [RStories (SFetchTopStories (done fetchTopStories tt (take 5 ids)))] /\
      w_errors w' = w_errors w
  | Throw e => w_log w' = w_log w /\ w_errors w' = w_errors w ++ [e]
  end.
Proof. exact (enhance_resume_effect w). Qed.

End Quiet.

Lemma enhance_spec_witness :
  (forall a, listener_fault sample_host a = None) /\
  w_log (snd (enhance (St:=unit) (J:=bjob) sample_host true (init_world tt))) =
    [RCounter (CIncrement (Counter.increment (mkParams 5)))].
Proof.
  split; [reflexivity|].
  destruct (enhance_spec (St:=unit) (J:=bjob) sample_host (fun _ => eq_refl) true (init_world tt))
    as (_ & Hl & _).
  exact Hl.
Defined.

Lemma enhance_resume_spec_witness :
  (forall a, listener_fault sample_host a = None) /\
  w_log (js_exec (js_settle report (run_bjob (St:=unit) (J:=bjob) sample_host EnhanceResume))
                 (init_world tt)) =
    [RStories (SFetchTopStories (done fetchTopStories tt [1; 2; 3; 4; 5]%Z))].
Proof.
  split; [reflexivity|].
  exact (proj1 (enhance_resume_spec (St:=unit) (J:=bjob) sample_host (fun _ => eq_refl) (init_world tt))).
Defined.


End Bootstrap.
