(* ===== verification/Page.v ===== *)
(** * The page: its wiring, its reachable worlds and the lifecycle theorems

    Lines 88-114 of [src/pages/redux.tsx]: [mapStateToProps],
    [mapDispatchToProps] and [withRedux(...)(enhance(Redux))], which hands
    the props to the (unmodelled) presentation component.  The page's jobs
    are those of the dispatcher and of the bootstrap hook; [reachable] holds
    every world the page can reach from a fresh store through calls of the
    props' methods (through the instance or detached), runs of the bootstrap
    hook on either leg, and turns of the event loop, in any interleaving.
    [outstanding] is the lifecycle automaton of one operation and params run
    over the dispatch log: it counts invocations started and not yet
    terminated and fails on a terminal descriptor that no [started] with the
    same params precedes.  The theorems: the lifecycle invariant and its
    liveness under a store whose listeners do not throw.  [fire_preserves] and
    [run_task_preserves] carry a property kept by every primitive of the
    store to every event and task of the page. *)

From S2P Require Import Prelude Fsa Actions Store Dispatcher Bootstrap.
From stdpp Require Import base list strings relations.
From Stdlib Require Import ZArith.
Import Descriptor Factory Counter Stories Store Dispatcher Bootstrap.
Open Scope js_scope.

Module Page.

Inductive job :=
| JDispatcher (j : djob)
| JBootstrap (j : bjob).

#[export] Instance djob_of : JobOf djob job := JDispatcher.
#[export] Instance bjob_of : JobOf bjob job := JBootstrap.

(** The slice of the root state the page reads ([store/root-state]). *)
Record RootState (C T : Type) := mkRootState { counter : C; stories : T }.
Arguments mkRootState {C T} _ _.
Arguments counter {C T} _.
Arguments stories {C T} _.

(** [mapStateToProps], lines 88-93. *)
Definition mapStateToProps {C T} (s : RootState C T) : RootState C T :=
  mkRootState (counter s) (stories s).

Record DispatchProps := mkDispatchProps { actions : ReduxActionDispatcher }.

(** [mapDispatchToProps], lines 95-99: a fresh instance over the store's
    dispatch. *)
Definition mapDispatchToProps : DispatchProps :=
  mkDispatchProps new_ReduxActionDispatcher.

(** What may happen to the page. *)
Inductive event :=
| EvCall (c : call) (detached : bool)
| EvBootstrap (isServer : bool).

Section System.
Context {St : Type} `{Reducer St}.
Variable h : host.

Definition run_job (j : job) : js (world St job) unit :=
  match j with
| JDispatcher d => run_djob h d
| JBootstrap b => run_bjob h b
  end.

Definition fire (e : event) : js (world St job) unit :=
  match e with
| EvCall c d => invoke h (actions mapDispatchToProps) c d
| EvBootstrap s => enhance h s
  end.

Inductive reachable : world St job -> Prop :=
| reach_init s0 : reachable (init_world s0)
| reach_event w e : reachable w -> reachable (js_exec (fire e) w)
| reach_loop w w' : reachable w -> loop_step run_job w w' -> reachable w'.
End System.

(** ** The lifecycle automaton *)

(** The operations driven by the async operation runner. *)
Definition runner_op (o : operation) : bool :=
  match o with OpIncrementAsync | OpDecrementAsync | OpFetchStory => true | _ => false end.

(** One descriptor read by the automaton of the invocations of operation
    [o] with params [c], [n] of them outstanding. *)
Definition lifecycle_step (o : operation) (c : corr_key) (n : nat) (a : ReduxAction) : option nat :=
  if bool_decide (op_of a = o /\ key_of a = c) then
    match phase_of a with
    | Some Started => Some (S n)
    | Some Done | Some Failed => match n with O => None | S k => Some k end
    | None => Some n
    end
  else Some n.

Definition outstanding (o : operation) (c : corr_key) (l : list ReduxAction) : option nat :=
  scan_opt (lifecycle_step o c) 0 l.

(** The invocation (operation and params) a pending job will close. *)
Definition job_op (j : job) : option (operation * corr_key) :=
  match j with
| JDispatcher (IncrementAsyncTimer p) => Some (OpIncrementAsync, KParams p)
| JDispatcher (DecrementAsyncTimer p) => Some (OpDecrementAsync, KParams p)
| JDispatcher (FetchStoryResume id) => Some (OpFetchStory, KId id)
| JBootstrap _ => None
  end.

Definition pending (o : operation) (c : corr_key) (q : list (task job)) : nat :=
  countb (fun t => bool_decide (job_op (t_job t) = Some (o, c))) q.

(** For every operation of the runner and every params: each terminal
    descriptor closes an invocation started before it with the same params,
    and the invocations started and not yet terminated are exactly those
    whose terminal job is pending. *)
Definition lifecycle_inv {St} (w : world St job) : Prop :=
  forall o c, runner_op o = true -> outstanding o c (w_log w) = Some (pending o c (w_queue w)).

(** Counting the descriptors of each phase of the invocations of [o] with
    params [c]. *)
Definition is_started (o : operation) (c : corr_key) (a : ReduxAction) : bool :=
  bool_decide (op_of a = o /\ key_of a = c) &&
  match phase_of a with Some Started => true | _ => false end.
Definition is_terminal (o : operation) (c : corr_key) (a : ReduxAction) : bool :=
  bool_decide (op_of a = o /\ key_of a = c) &&
  match phase_of a with Some Done | Some Failed => true | _ => false end.

(** ** Lemmas on the automaton and the queue *)

Lemma step_counts o c n a n' :
  lifecycle_step o c n a = Some n' ->
  (if is_started o c a then 1 else 0) + n = (if is_terminal o c a then 1 else 0) + n'.
Proof.
  unfold lifecycle_step, is_started, is_terminal.
  destruct (bool_decide _), (phase_of a) as [[]|], n; cbn; intros; simplify_eq; lia.
Qed.

(** What the automaton accepts balances [started] against terminals. *)
Lemma scan_counts o c (l : list ReduxAction) n n' :
  scan_opt (lifecycle_step o c) n l = Some n' ->
  countb (is_started o c) l + n = countb (is_terminal o c) l + n'.
Proof.
  revert n. induction l as [|a l IH]; intros n Hs; cbn in Hs.
  - simplify_eq. done.
  - destruct (lifecycle_step o c n a) as [m|] eqn:Es; [|discriminate].
    apply IH in Hs. apply step_counts in Es. rewrite !countb_cons. lia.
Qed.

Lemma pending_app o c q1 q2 : pending o c (q1 ++ q2) = pending o c q1 + pending o c q2.
Proof. apply countb_app. Qed.

Lemma pending_delete o c (q : list (task job)) i t :
  q !! i = Some t -> pending o c q = pending o c (delete i q) + pending o c [t].
Proof.
  intros Hi. rewrite <- (take_drop_middle q i t Hi) at 1.
  rewrite delete_take_drop. unfold pending. autorewrite with js_rw. cbn. lia.
Qed.

(** A world extended by a log suffix [s] and new tasks [q] keeps the
    invariant when [s] opens exactly the invocations [q] will close. *)
Lemma inv_extend {St} (w w' : world St job) s q :
  lifecycle_inv w -> w_log w' = w_log w ++ s -> w_queue w' = w_queue w ++ q ->
  (forall o c n, runner_op o = true ->
     scan_opt (lifecycle_step o c) n s = Some (n + pending o c q)) ->
  lifecycle_inv w'.
Proof.
  intros Hw Hl Hq Hs o c Ho. specialize (Hw o c Ho). unfold outstanding in *.
  by rewrite Hl, Hq, scan_opt_app, Hw, Hs, pending_app.
Qed.

(** A task taken off the queue keeps the invariant when its run closes
    exactly the invocation it stood for. *)
Lemma inv_consume {St} (w w' : world St job) i t s :
  lifecycle_inv w -> w_queue w !! i = Some t ->
  w_log w' = w_log w ++ s -> w_queue w' = delete i (w_queue w) ->
  (forall o c n, runner_op o = true ->
     scan_opt (lifecycle_step o c) (pending o c [t] + n) s = Some n) ->
  lifecycle_inv w'.
Proof.
  intros Hw Hi Hl Hq Hs o c Ho. specialize (Hw o c Ho). unfold outstanding in *.
  rewrite Hl, Hq, scan_opt_app, Hw, (pending_delete o c _ i t Hi), Nat.add_comm. by apply Hs.
Qed.

(** Close a goal about the automaton on a concrete log suffix. *)
Ltac solve_scan :=
  let o := fresh "o" in let c := fresh "c" in let n := fresh "n" in let Ho := fresh "Ho" in
  intros o c n Ho; destruct o; try discriminate;
  unfold pending, countb, lifecycle_step; cbn;
  repeat case_bool_decide; try (exfalso; naive_solver); cbn; f_equal; lia.

(** Instantiate a footprint goal from a spec theorem [Hspec] giving the
    completion, the log and the queue of the computation. *)
Ltac footprint_from Hspec :=
  let Hn := fresh in let Hl := fresh in let Hq := fresh in
  pose proof Hspec as (Hn & Hl & Hq & _);
  rewrite ?(js_settle_ok _ _ _ Hn), Hl, Hq;
  eexists _, _; split; [reflexivity|]; split; [reflexivity|].

(** A computation that leaves log and queue as they were. *)
Ltac footprint_none_with tac :=
  exists [], []; rewrite !app_nil_r; split; [done|]; split; [done|tac].
Ltac footprint_none := footprint_none_with solve_scan.

(** The case analysis of the footprint of an event [e] from a world [w]
    under a host [h] whose listeners do not throw ([quiet]): every call,
    through the instance or detached, and both legs of the hook, each case
    closed by [close]. *)
Ltac event_cases h quiet e w close :=
  let c := fresh "c" in let d := fresh "d" in let isServer := fresh "isServer" in
  let dl := fresh "dl" in let id := fresh "id" in
  destruct e as [c d|isServer];
  [ destruct d; unfold fire, mapDispatchToProps, js_exec; cbn [actions]; [rewrite invoke_detached|];
    destruct c as [dl|dl| | |id]; cbn -[incrementAsync decrementAsync fetchStoryAsync];
    first
      [ footprint_none_with close
      | unfold increment, decrement; rewrite dispatch_ok by done;
        eexists _, []; split; [reflexivity|]; split; [cbn; by rewrite app_nil_r|close]
      | footprint_from (incrementAsync_effect h quiet w); destruct (setTimeout_fault h); close
      | footprint_from (decrementAsync_effect h quiet w); destruct (setTimeout_fault h); close
      | footprint_from (fetchStoryAsync_effect h quiet id w); close ]
  | unfold fire, js_exec; footprint_from (enhance_effect h quiet isServer w);
    destruct isServer; close ].

(** The case analysis of the footprint of running a task [t] from a world
    [w], each case closed by [close]. *)
Ltac task_cases h quiet t w close :=
  let due := fresh "due" in let p := fresh "p" in let id := fresh "id" in
  let Hn := fresh "Hn" in let Hl := fresh "Hl" in let Hs := fresh "Hs" in
  destruct t as [due [[p|p|id]|[]]]; unfold run_task, js_exec; cbn [t_job run_job run_djob run_bjob];
  [ unfold incrementAsync_timer; rewrite js_settle_ok; rewrite dispatch_ok by done; [|done];
    eexists; split; [reflexivity|close]
  | unfold decrementAsync_timer; rewrite js_settle_ok; rewrite dispatch_ok by done; [|done];
    eexists; split; [reflexivity|close]
  | pose proof (fetchStoryAsync_effect h quiet id w) as (_ & _ & _ & Hn & Hl & _);
    rewrite (js_settle_ok _ _ _ Hn), Hl; eexists; split; [reflexivity|];
    destruct (api_fetchStory h id); close
  | pose proof (enhance_resume_effect h quiet w) as Hs; cbn in Hs; unfold js_exec in Hs;
    destruct (api_fetchTopStoryIds h); destruct Hs as [Hl _]; rewrite Hl;
    [eexists; split; [reflexivity|close] | exists []; rewrite app_nil_r; split; [reflexivity|close]] ].

Section Footprints.
Context {St : Type} `{Reducer St}.
Variable h : host.

(** No job schedules further work, whatever the host does. *)
Lemma run_job_queue (j : job) (w : world St job) :
  w_queue (js_exec (run_job h j) w) = w_queue w.
Proof.
  destruct j as [[p|p|id]|[]]; cbn;
  unfold incrementAsync_timer, decrementAsync_timer, fetchStoryAsync_resume,
    enhance_resume, js_exec, js_try, js_bind, js_lift, dispatch;
  repeat case_match; simplify_eq; done.
Qed.

Hypothesis quiet : forall a, listener_fault h a = None.

Lemma fire_footprint (e : event) (w : world St job) :
  exists s q,
  w_log (js_exec (fire h e) w) = w_log w ++ s /\
  w_queue (js_exec (fire h e) w) = w_queue w ++ q /\
  forall o c n, runner_op o = true ->
    scan_opt (lifecycle_step o c) n s = Some (n + pending o c q).
Proof. event_cases h quiet e w solve_scan. Qed.

Lemma run_task_footprint (t : task job) (w : world St job) :
  exists s,
  w_log (run_task (run_job h) t w) = w_log w ++ s /\
  forall o c n, runner_op o = true ->
    scan_opt (lifecycle_step o c) (pending o c [t] + n) s = Some n.
Proof. task_cases h quiet t w solve_scan. Qed.
End Footprints.

(** ** The lifecycle theorems *)

Section Lifecycle.
Context {St : Type} `{Reducer St}.
Variable h : host.
Hypothesis quiet : forall a, listener_fault h a = None.

(** The invariant holds in every reachable world, by rule induction. *)
Lemma reachable_lifecycle_inv (w : world St job) :
  reachable h w -> lifecycle_inv w.
Proof.
  induction 1 as [s0|w e _ IH|w w' _ IH Hstep].
  - by intros o c _.
  - destruct (fire_footprint h quiet e w) as (s & q & Hl & Hq & Hs).
    by eapply inv_extend.
  - destruct Hstep as [w i t Hi _|w d _].
    + destruct (run_task_footprint h quiet t (set_queue (delete i (w_queue w)) w)) as (s & Hl & Hs).
      eapply inv_consume; [exact IH|exact Hi|exact Hl| |exact Hs].
      apply (run_task_queue _ (run_job_queue h)).
    + eapply (inv_extend _ _ [] []); [exact IH|by rewrite app_nil_r..|solve_scan].
Qed.

(** C1: in every world the page can reach, in any interleaving of
  calls, bootstrap runs and event-loop turns, and whatever the remote
  calls and [setTimeout] do: for each operation of the runner and each
  params, every terminal descriptor closes an invocation with the same
  params whose [started] came before it, and the invocations started and
  not yet terminated are exactly those whose terminal job is pending. *)
Theorem lifecycle_invariant (w : world St job) :
  reachable h w -> lifecycle_inv w.
Proof. exact (reachable_lifecycle_inv w). Qed.

Lemma reachable_star (w w' : world St job) :
  reachable h w -> rtc (loop_step (run_job h)) w w' -> reachable h w'.
Proof. intros Hw Hs. induction Hs; eauto using reachable. Qed.

(** C2: every invocation terminates exactly once: from any reachable
  world, running the pending tasks (a schedule of the event loop, as
  many turns as tasks) reaches a world with no pending task in which,
  for each operation of the runner and each params, the [started]
  descriptors and the terminal descriptors are equally many and each
  terminal follows a [started] with the same params. *)
Theorem lifecycle_completes (w : world St job) :
  reachable h w ->
  let w' := drain (run_job h) (length (w_queue w)) w in
  reachable h w' /\ w_queue w' = [] /\
  forall o c, runner_op o = true ->
  outstanding o c (w_log w') = Some 0 /\
  countb (is_started o c) (w_log w') = countb (is_terminal o c) (w_log w').
Proof.
  intros Hw. destruct (drain_terminates (run_job h) (run_job_queue h) w) as [Hq Hs].
  assert (Hr : reachable h (drain (run_job h) (length (w_queue w)) w)) by eauto using reachable_star.
  split; [done|]. split; [done|]. intros o c Ho.
  pose proof (reachable_lifecycle_inv _ Hr o c Ho) as Hi. rewrite Hq in Hi.
  change (pending o c []) with 0 in Hi.
  split; [done|]. apply scan_counts in Hi. lia.
Qed.
End Lifecycle.

Section Preservation.
Context {St : Type} `{Reducer St}.
Variable h : host.
(** A property of worlds kept by every primitive the page calls. *)
Variable P : world St job -> Prop.
Hypothesis P_dispatch : forall a, wf_action a = true -> preserves P (dispatch h a).
Hypothesis P_setTimeout : forall (j : job) d, preserves P (setTimeout h j d).
Hypothesis P_await : forall (j : job), preserves P (await_then j).
Hypothesis P_report : forall e w, P w -> P (report e w).

(** Every event of the page keeps it. *)
Lemma fire_preserves (e : event) : preserves P (fire h e).
Proof.
  destruct e as [c d|[]]; unfold fire, invoke, enhance; cbn [actions mapDispatchToProps].
  - destruct c, d; cbn; try destruct (bool_decide _);
    unfold increment, decrement, incrementAsync, decrementAsync, fetchStoryAsync; eauto 10 with js.
  - eauto with js.
  - eauto with js.
Qed.

(** Every job of the page keeps it, and so does every task run. *)
Lemma run_job_preserves (j : job) : preserves P (run_job h j).
Proof.
  destruct j as [[p|p|id]|[]]; cbn;
  unfold incrementAsync_timer, decrementAsync_timer, fetchStoryAsync_resume, enhance_resume;
  eauto with js.
Qed.

Lemma run_task_preserves (t : task job) (w : world St job) : P w -> P (run_task (run_job h) t w).
Proof. apply preserves_settle; [exact P_report|apply run_job_preserves]. Qed.
End Preservation.

Lemma lifecycle_invariant_witness :
  (forall a, listener_fault sample_host a = None) /\
  lifecycle_inv (js_exec (fire (St:=unit) sample_host (EvCall (CallFetchStoryAsync 42) false))
                         (init_world tt)).
Proof.
  split; [reflexivity|].
  apply (lifecycle_invariant sample_host (fun _ => eq_refl)).
  apply reach_event, reach_init.
Defined.

Lemma lifecycle_completes_witness :
  (forall a, listener_fault sample_host a = None) /\
  w_queue (drain (run_job sample_host) 1
             (js_exec (fire (St:=unit) sample_host (EvCall CallIncrementAsync false)) (init_world tt))) = [].
Proof.
  split; [reflexivity|].
  exact (proj1 (proj2 (lifecycle_completes sample_host (fun _ => eq_refl) _
                        (reach_event _ _ (EvCall CallIncrementAsync false) (reach_init _ tt))))).
Defined.

End Page.
