(* ===== verification/Ordering.v ===== *)
(** * The order in which the timer-driven invocations complete

    [incrementAsync] and [decrementAsync] hand their work to [setTimeout]
    with the same delay, 1000 ms (lines 29-36 and 50-57).  Under the host's
    order of timers ([Scheduler.host_step]: earliest due time first, the
    first scheduled among equal ones; promise continuations at any turn),
    the timers of the page are always sorted by due time in the queue, so
    they fire in the order they were scheduled.  Module [Ordering] reads
    the dispatch log with a first-in first-out automaton of the open
    timer-driven invocations ([timer_order]) and proves that in every world
    the page reaches under the host's order, each [done] of a timer-driven
    operation closes the oldest open invocation, each [failed] the one that
    has just started, and the invocations still open are the pending timers,
    in queue order. *)

From S2P Require Import Prelude Fsa Actions Store Scheduler Dispatcher Bootstrap Page.
From stdpp Require Import base list strings relations sorting.
From Stdlib Require Import ZArith.
Import Descriptor Factory Counter Stories Store Scheduler Dispatcher Bootstrap Page.
Open Scope js_scope.

Module Ordering.

Section HostReach.
Context {St : Type} `{Reducer St}.
Variable h : host.

(** The worlds the page reaches when the host orders its timers. *)
Inductive host_reachable : world St job -> Prop :=
| hreach_init s0 : host_reachable (init_world s0)
| hreach_event w e : host_reachable w -> host_reachable (js_exec (fire h e) w)
| hreach_step w w' : host_reachable w -> host_step (run_job h) w w' -> host_reachable w'.
End HostReach.

(** The operations whose work is a timer. *)
Definition timer_op (o : operation) : bool :=
  match o with OpIncrementAsync | OpDecrementAsync => true | _ => false end.

(** The invocation a timer job closes. *)
Definition timer_job (j : job) : option (operation * corr_key) :=
  match j with
  | JDispatcher (IncrementAsyncTimer p) => Some (OpIncrementAsync, KParams p)
  | JDispatcher (DecrementAsyncTimer p) => Some (OpDecrementAsync, KParams p)
  | _ => None
  end.

Definition timer_keys (q : list (task job)) : list (operation * corr_key) :=
  omap (fun t => timer_job (t_job t)) q.

(** One descriptor read by the automaton of the open timer-driven
    invocations, oldest first: [started] opens one at the back, [done]
    closes the oldest, [failed] (dispatched by the [catch] right after its
    [started]) closes the newest; any other mismatch is rejected. *)
Definition fifo_step (open : list (operation * corr_key)) (a : ReduxAction)
  : option (list (operation * corr_key)) :=
  if timer_op (op_of a) then
    match phase_of a with
    | Some Started => Some (open ++ [(op_of a, key_of a)])
    | Some Done =>
        match open with
        | k :: open' => if bool_decide (k = (op_of a, key_of a)) then Some open' else None
        | [] => None
        end
    | Some Failed =>
        if bool_decide (last open = Some (op_of a, key_of a)) then Some (removelast open) else None
    | None => Some open
    end
  else Some open.

Definition timer_order (l : list ReduxAction) : option (list (operation * corr_key)) :=
  scan_opt fifo_step [] l.

(** A task is a timer exactly when its job is a timer job. *)
Definition timer_shaped (t : task job) : Prop :=
  is_Some (t_due t) <-> is_Some (timer_job (t_job t)).

(** The queue of a world: tasks timer-shaped, timers due at most 1000 ms
    from now, in queue order sorted by due time. *)
Definition queue_ok {St} (w : world St job) : Prop :=
  Forall timer_shaped (w_queue w) /\
  Forall (fun d => d <= w_clock w + 1000)%Z (timer_dues (w_queue w)) /\
  StronglySorted Z.le (timer_dues (w_queue w)).

Definition order_inv {St} (w : world St job) : Prop :=
  queue_ok w /\ timer_order (w_log w) = Some (timer_keys (w_queue w)).

(** A task an event schedules at time [now]: a timer due 1000 ms later
    running a timer job, or a continuation running another job. *)
Definition new_task (now : Z) (t : task job) : Prop :=
  (t_due t = Some (now + 1000)%Z /\ is_Some (timer_job (t_job t))) \/
  (t_due t = None /\ timer_job (t_job t) = None).

(** What an event adds: tasks scheduled now, and descriptors that open
    exactly the timer-driven invocations of those tasks, in order. *)
Definition order_effect (now : Z) (s : list ReduxAction) (q : list (task job)) : Prop :=
  Forall (new_task now) q /\
  forall open, scan_opt fifo_step open s = Some (open ++ timer_keys q).

(** ** Lemmas on the queue *)

Lemma timer_keys_app q1 q2 : timer_keys (q1 ++ q2) = timer_keys q1 ++ timer_keys q2.
Proof. apply omap_app. Qed.

Lemma timer_dues_app {J} (q1 q2 : list (task J)) : timer_dues (q1 ++ q2) = timer_dues q1 ++ timer_dues q2.
Proof. apply omap_app. Qed.

Lemma timer_keys_one t :
  timer_keys [t] = match timer_job (t_job t) with Some k => [k] | None => [] end.
Proof. reflexivity. Qed.

#[local] Hint Rewrite timer_keys_app @timer_dues_app : js_rw.

(** Splitting a queue around position [i]. *)
Lemma queue_split {A} (q : list A) i t :
  q !! i = Some t -> q = take i q ++ [t] ++ drop (S i) q /\ delete i q = take i q ++ drop (S i) q.
Proof. intros Hi. split; [exact (eq_sym (take_drop_middle q i t Hi))|apply delete_take_drop]. Qed.

(** Taking a task off a sorted queue keeps it sorted and bounded. *)
Lemma timer_dues_delete (q : list (task job)) i t (b : Z) :
  q !! i = Some t ->
  Forall (fun d => d <= b)%Z (timer_dues q) -> StronglySorted Z.le (timer_dues q) ->
  Forall (fun d => d <= b)%Z (timer_dues (delete i q)) /\ StronglySorted Z.le (timer_dues (delete i q)).
Proof.
  intros Hi. destruct (queue_split q i t Hi) as [Hq Hd]. rewrite Hd. rewrite Hq at 1 2.
  autorewrite with js_rw. rewrite !Forall_app, !StronglySorted_app.
  intros (Hb1 & _ & Hb3) (Hx & Hs1 & _ & _ & Hs3).
  split; [done|]. split; [|done]. intros x1 x2 H1 H2. apply Hx; [done|].
  apply elem_of_app. by right.
Qed.

(** A prefix of the queue without timer jobs has no key. *)
Lemma timer_keys_take_none (q : list (task job)) i :
  (forall j y, q !! j = Some y -> j < i -> timer_job (t_job y) = None) -> timer_keys (take i q) = [].
Proof.
  revert i. induction q as [|x q IH]; intros [|i] Hq; [done..|]. cbn.
  rewrite (Hq 0 x) by (done || lia). apply IH. intros j y Hj Hji. apply (Hq (S j)); [done|lia].
Qed.

(** The first timer of a queue whose tasks are timer-shaped carries the
    first timer key. *)
Lemma timer_keys_first (q : list (task job)) i t :
  Forall timer_shaped q ->
  list_find (fun t => is_Some (t_due t)) q = Some (i, t) ->
  timer_keys q = timer_keys [t] ++ timer_keys (delete i q).
Proof.
  intros Hq (Hi & _ & Hbefore)%list_find_Some.
  destruct (queue_split q i t Hi) as [Hs Hd]. rewrite Hd. rewrite Hs at 1.
  autorewrite with js_rw. rewrite timer_keys_take_none; [done|].
  intros j y Hj Hji. rewrite Forall_lookup in Hq. specialize (Hq j y Hj). unfold timer_shaped in Hq.
  destruct (timer_job (t_job y)) eqn:E; [|done].
  exfalso. apply (Hbefore j y Hj Hji). apply Hq. by eexists.
Qed.

(** A task that is not a timer job leaves the keys as they were. *)
Lemma timer_keys_delete_other (q : list (task job)) i t :
  q !! i = Some t -> timer_job (t_job t) = None -> timer_keys (delete i q) = timer_keys q.
Proof.
  intros Hi Ht. destruct (queue_split q i t Hi) as [Hs Hd]. rewrite Hd. rewrite Hs at 3.
  autorewrite with js_rw. by rewrite timer_keys_one, Ht.
Qed.

(** The due times of tasks scheduled now are all [now + 1000]. *)
Lemma new_task_dues now q : Forall (new_task now) q -> Forall (fun d => d = now + 1000)%Z (timer_dues q).
Proof.
  induction 1 as [|t q [[Hd _]|[Hd _]] _ IH]; [constructor| |];
    unfold timer_dues; cbn; rewrite Hd; [by constructor|exact IH].
Qed.

Lemma StronglySorted_const (c : Z) l : Forall (fun d => d = c) l -> StronglySorted Z.le l.
Proof.
  induction 1 as [|x l Hx Hl IH]; constructor; [exact IH|].
  eapply Forall_impl; [exact Hl|]. intros y Hy. cbn in Hy. lia.
Qed.

(** ** The invariant, step by step *)

(** An event that schedules tasks now and opens exactly their
    invocations keeps the invariant. *)
Lemma order_inv_extend {St} (w w' : world St job) s q :
  order_inv w -> w_log w' = w_log w ++ s -> w_queue w' = w_queue w ++ q ->
  w_clock w' = w_clock w -> order_effect (w_clock w) s q -> order_inv w'.
Proof.
  intros ((Hsh & Hb & Hso) & Ho) Hl Hq Hc (Hnew & Hs). pose proof (new_task_dues _ _ Hnew) as Hd.
  split; [split; [|split]|]; rewrite ?Hq, ?Hc.
  - apply Forall_app; split; [done|]. eapply Forall_impl; [exact Hnew|].
    intros t Ht. unfold timer_shaped. destruct Ht as [[-> Ht]|[-> ->]]; naive_solver.
  - rewrite timer_dues_app. apply Forall_app; split; [done|].
    eapply Forall_impl; [exact Hd|]. intros x ->. lia.
  - rewrite timer_dues_app. apply StronglySorted_app_2; [|done|by eapply StronglySorted_const].
    intros x1 x2 H1 H2. rewrite Forall_forall in Hb, Hd. rewrite (Hd x2 H2). by apply Hb.
  - unfold timer_order in *. by rewrite Hl, scan_opt_app, Ho, Hs, timer_keys_app.
Qed.

(** A task taken off the queue keeps the invariant when it carries the
    oldest key, if any, and its run closes exactly that invocation. *)
Lemma order_inv_consume {St} (w w' : world St job) i t s :
  order_inv w -> w_queue w !! i = Some t ->
  timer_keys (w_queue w) = timer_keys [t] ++ timer_keys (delete i (w_queue w)) ->
  w_log w' = w_log w ++ s -> w_queue w' = delete i (w_queue w) -> w_clock w' = w_clock w ->
  (forall open, scan_opt fifo_step (timer_keys [t] ++ open) s = Some open) ->
  order_inv w'.
Proof.
  intros ((Hsh & Hb & Hso) & Ho) Hi Hk Hl Hq Hc Hs.
  destruct (timer_dues_delete _ i t _ Hi Hb Hso) as [Hb' Hso'].
  split; [split; [|split]|]; rewrite ?Hq, ?Hc.
  - by apply Forall_delete.
  - done.
  - done.
  - unfold timer_order in *. by rewrite Hl, scan_opt_app, Ho, Hk, Hs.
Qed.

(** A task that is not a timer carries no key. *)
Lemma settle_keys {St} (w : world St job) i t :
  order_inv w -> w_queue w !! i = Some t -> t_due t = None ->
  timer_keys (w_queue w) = timer_keys [t] ++ timer_keys (delete i (w_queue w)).
Proof.
  intros ((Hsh & _) & _) Hi Hd.
  assert (Ht : timer_job (t_job t) = None).
  { rewrite Forall_lookup in Hsh. specialize (Hsh i t Hi). unfold timer_shaped in Hsh. rewrite Hd in Hsh.
    destruct (timer_job (t_job t)); [|done]. exfalso. assert (is_Some (@None Z)) as [? ?]; [|done].
    apply Hsh. by eexists. }
  rewrite (timer_keys_delete_other _ i t Hi Ht), timer_keys_one, Ht. done.
Qed.

(** The timer the host fires is the first one, which carries the oldest key. *)
Lemma timer_step_keys {St} (w : world St job) i t :
  order_inv w -> next_timer (w_queue w) = Some i -> w_queue w !! i = Some t ->
  timer_keys (w_queue w) = timer_keys [t] ++ timer_keys (delete i (w_queue w)).
Proof.
  intros ((Hsh & _ & Hso) & _) Hn Hi. rewrite next_timer_sorted in Hn by done.
  destruct (list_find _ (w_queue w)) as [[k t']|] eqn:Hf; [|done]. cbn in Hn. simplify_eq.
  pose proof Hf as (Hk & _)%list_find_Some. rewrite Hi in Hk. simplify_eq.
  by apply timer_keys_first.
Qed.

(** ** Footprints of the page's events and tasks *)

(** Close a scan of the automaton over a concrete suffix. *)
Ltac solve_fifo_scan :=
  let op := fresh "open" in
  intros op; unfold fifo_step; cbn;
  rewrite ?last_snoc, ?bool_decide_true, ?removelast_last, ?app_nil_r by done; reflexivity.

Ltac solve_fifo :=
  split; [rewrite ?Forall_cons, ?Forall_nil; unfold new_task; cbn; naive_solver|solve_fifo_scan].

Section OrderFootprints.
Context {St : Type} `{Reducer St}.
Variable h : host.

Lemma fire_clock (e : event) (w : world St job) : w_clock (js_exec (fire h e) w) = w_clock w.
Proof. apply (fire_preserves h (fun w' => w_clock w' = w_clock w)); eauto with js. Qed.

Lemma run_task_clock (t : task job) (w : world St job) : w_clock (run_task (run_job h) t w) = w_clock w.
Proof. apply (run_task_preserves h (fun w' => w_clock w' = w_clock w)); eauto with js. Qed.

Hypothesis quiet : forall a, listener_fault h a = None.

Lemma fire_order_footprint (e : event) (w : world St job) :
  exists s q,
  w_log (js_exec (fire h e) w) = w_log w ++ s /\
  w_queue (js_exec (fire h e) w) = w_queue w ++ q /\
  order_effect (w_clock w) s q.
Proof. event_cases h quiet e w solve_fifo. Qed.

Lemma run_task_order_footprint (t : task job) (w : world St job) :
  exists s,
  w_log (run_task (run_job h) t w) = w_log w ++ s /\
  forall open, scan_opt fifo_step (timer_keys [t] ++ open) s = Some open.
Proof. task_cases h quiet t w solve_fifo_scan. Qed.
End OrderFootprints.

(** ** The order of completion *)

Section Order.
Context {St : Type} `{Reducer St}.
Variable h : host.

(** The host's order is one of the event loop's schedules, so every
    theorem on [reachable] holds under it. *)
Lemma host_reachable_reachable (w : world St job) : host_reachable h w -> reachable h w.
Proof.
  induction 1 as [s0|w e _ IH|w w' _ IH Hs]; [apply reach_init|by apply reach_event|].
  eapply reach_loop; [exact IH|by apply host_step_loop_step].
Qed.

Hypothesis quiet : forall a, listener_fault h a = None.

(** The invariant holds in every world reached under the host's order,
    by rule induction. *)
Lemma host_reachable_order_inv (w : world St job) : host_reachable h w -> order_inv w.
Proof.
  induction 1 as [s0|w e _ IH|w w' _ IH Hstep].
  - split; [split; [constructor|split; constructor]|done].
  - destruct (fire_order_footprint h quiet e w) as (s & q & Hl & Hq & He).
    eapply order_inv_extend; [exact IH|exact Hl|exact Hq|apply fire_clock|exact He].
  - destruct Hstep as [w i t Hi Hd|w i t Hn Hi Hr|w d Hd].
    1, 2: destruct (run_task_order_footprint h quiet t (set_queue (delete i (w_queue w)) w)) as (s & Hl & Hs);
      cbn [w_log set_queue] in Hl; eapply order_inv_consume; [exact IH|exact Hi| |exact Hl|
        by rewrite (run_task_queue _ (run_job_queue h))|by rewrite run_task_clock|exact Hs].
    + by apply settle_keys.
    + by apply timer_step_keys.
    + destruct IH as ((Hsh & Hb & Hso) & Ho). split; [split; [done|split; [|done]]|done].
      eapply Forall_impl; [exact Hb|]. cbn. intros x Hx. lia.
Qed.

(** C14: under the host's order of timers, the timer-driven invocations
    ([incrementAsync], [decrementAsync]) complete in the order they
    started: in every world the page reaches, whatever the remote calls
    and [setTimeout] do, each [done] of a timer-driven operation closes the
    oldest open invocation, each [failed] the one that has just started,
    and the open invocations, oldest first, are the pending timers in
    queue order. *)
Theorem timers_complete_in_order (w : world St job) :
  host_reachable h w -> timer_order (w_log w) = Some (timer_keys (w_queue w)).
Proof. intros Hw. exact (proj2 (host_reachable_order_inv w Hw)). Qed.
End Order.

(** ** Liveness under the host's order *)

Section HostDrain.
Context {St : Type} `{Reducer St}.
Variable h : host.

Lemma host_reachable_star (w w' : world St job) :
  host_reachable h w -> rtc (host_step (run_job h)) w w' -> host_reachable h w'.
Proof. intros Hw Hs. induction Hs; eauto using host_reachable. Qed.

(** On a queue whose timers are sorted, running the oldest task, after
    advancing the clock to its due time, is what the host may do. *)
Lemma run_next_host_star (w : world St job) :
  queue_ok w -> rtc (host_step (run_job h)) w (run_next (run_job h) w).
Proof.
  intros (_ & _ & Hso). unfold run_next. destruct (w_queue w) as [|t q] eqn:E; [done|].
  destruct (t_due t) as [d|] eqn:Ed.
  - apply rtc_trans with (set_clock (Z.max d (w_clock w)) w).
    + destruct (Z.eq_dec (Z.max d (w_clock w)) (w_clock w)) as [->|Hne]; [by destruct w|].
      apply rtc_once. pose proof (host_tick (run_job h) w (Z.max d (w_clock w) - w_clock w)) as T.
      replace (w_clock w + (Z.max d (w_clock w) - w_clock w))%Z with (Z.max d (w_clock w)) in T by lia.
      apply T. lia.
    + apply rtc_once.
      replace (set_clock (Z.max d (w_clock w)) (set_queue q w))
        with (set_queue (delete 0 (w_queue (set_clock (Z.max d (w_clock w)) w)))
                        (set_clock (Z.max d (w_clock w)) w)) by (cbn; by rewrite E).
      apply (host_timer _ _ 0 t).
      * cbn [w_queue set_clock]. rewrite E, next_timer_sorted by exact Hso. cbn. rewrite decide_True; [done|]. rewrite Ed. by eexists.
      * cbn. by rewrite E.
      * unfold ready. rewrite Ed. cbn. apply Z.leb_le. lia.
  - apply rtc_once.
    replace (set_clock (w_clock w) (set_queue q w)) with (set_queue (delete 0 (w_queue w)) w)
      by (rewrite E; by destruct w).
    by apply (host_settle _ w 0 t); [rewrite E|].
Qed.

Hypothesis quiet : forall a, listener_fault h a = None.

Lemma drain_host_reachable (n : nat) (w : world St job) :
  host_reachable h w -> host_reachable h (drain (run_job h) n w).
Proof.
  revert w. induction n as [|n IH]; intros w Hw; [done|]. cbn. apply IH.
  eapply host_reachable_star; [exact Hw|].
  apply run_next_host_star. exact (proj1 (host_reachable_order_inv h quiet w Hw)).
Qed.

(** C16: under the host's order every timer-driven invocation completes:
    from any world the page reaches, the host can run the pending tasks
    oldest first (advancing its clock to each timer's due time), which
    empties the queue and closes every open invocation of
    [incrementAsync] and [decrementAsync], in the order they started. *)
Theorem timers_all_complete (w : world St job) :
  host_reachable h w ->
  let w' := drain (run_job h) (length (w_queue w)) w in
  host_reachable h w' /\ w_queue w' = [] /\ timer_order (w_log w') = Some [].
Proof.
  intros Hw. cbn zeta.
  pose proof (drain_host_reachable (length (w_queue w)) w Hw) as Hr.
  destruct (drain_terminates (run_job h) (run_job_queue h) w) as [Hq _].
  split; [done|]. split; [done|].
  by rewrite (proj2 (host_reachable_order_inv h quiet _ Hr)), Hq.
Qed.
End HostDrain.

(** ** Liveness for every schedule of the event loop *)

(** A task due by time [b]: a continuation, or a timer due at [b] or
    earlier. *)
Definition due_by {J} (b : Z) (t : task J) : Prop :=
  match t_due t with Some d => (d <= b)%Z | None => True end.

Lemma due_by_ready {St J} (w : world St J) b t : due_by b t -> (b <= w_clock w)%Z -> ready w t = true.
Proof. unfold due_by, ready. destruct (t_due t); [intros; apply Z.leb_le; lia|done]. Qed.

Section AnySchedule.
Context {St : Type} `{Reducer St}.
Variable h : host.

(** Turns of the event loop only take tasks off the queue, and the clock
    only moves forward. *)
Lemma loop_steps_shrink (w w' : world St job) :
  rtc (loop_step (run_job h)) w w' ->
  w_queue w' `sublist_of` w_queue w /\ (w_clock w <= w_clock w')%Z.
Proof.
  induction 1 as [w|w w1 w' Hs _ [IHq IHc]]; [done|].
  destruct Hs as [w i t _ _|w d Hd]; cbn in *.
  - rewrite (run_task_queue _ (run_job_queue h)), run_task_clock in *. cbn in *.
    split; [|lia]. etrans; [exact IHq|apply sublist_delete].
  - split; [exact IHq|lia].
Qed.

Hypothesis quiet : forall a, listener_fault h a = None.

(** Every pending task is due within 1000 ms of now. *)
Lemma reachable_due_by (w : world St job) :
  reachable h w -> Forall (due_by (w_clock w + 1000)) (w_queue w).
Proof.
  induction 1 as [s0|w e _ IH|w w' _ IH Hs].
  - constructor.
  - destruct (fire_order_footprint h quiet e w) as (s & q & _ & Hq & Hnew & _).
    rewrite Hq, fire_clock. apply Forall_app. split; [exact IH|].
    eapply Forall_impl; [exact Hnew|]. intros t Ht. unfold due_by.
    destruct Ht as [[-> _]|[-> _]]; [lia|done].
  - destruct Hs as [w i t _ _|w d Hd]; cbn.
    + rewrite (run_task_queue _ (run_job_queue h)), run_task_clock. by apply Forall_delete.
    + eapply Forall_impl; [exact IH|]. unfold due_by. intros t. destruct (t_due t); [lia|done].
Qed.

(** C17: no invocation is left hanging, whatever the schedule: from any
    reachable world, once the event loop, in any order of its turns, has
    let 1000 ms pass and has no task ready, no task is pending and every
    invocation of [incrementAsync], [decrementAsync] and [fetchStoryAsync]
    started so far has been closed by exactly one terminal descriptor. *)
Theorem quiescent_complete (w w' : world St job) :
  reachable h w -> rtc (loop_step (run_job h)) w w' ->
  (w_clock w + 1000 <= w_clock w')%Z ->
  Forall (fun t => ready w' t = false) (w_queue w') ->
  w_queue w' = [] /\ forall o c, runner_op o = true -> outstanding o c (w_log w') = Some 0.
Proof.
  intros Hw Hs Hc Hidle. destruct (loop_steps_shrink w w' Hs) as [Hsub Hclock].
  assert (Hq : w_queue w' = []).
  { destruct (w_queue w') as [|t q] eqn:E; [done|]. exfalso.
    apply Forall_cons in Hidle as [Ht _].
    assert (Hin : t ∈ w_queue w) by (eapply elem_of_sublist; [|exact Hsub]; by left).
    pose proof (reachable_due_by w Hw) as Hd. rewrite Forall_forall in Hd.
    rewrite (due_by_ready w' _ t (Hd t Hin) Hc) in Ht. discriminate. }
  split; [exact Hq|]. intros o c Ho.
  pose proof (reachable_lifecycle_inv h quiet w' (reachable_star h w w' Hw Hs) o c Ho) as Hi.
  by rewrite Hq in Hi.
Qed.
End AnySchedule.

(** [incrementAsync()] then [decrementAsync()], 1000 ms passing, and the
    host firing its next timer twice. *)
Definition two_timers_w1 : world unit job :=
  js_exec (fire sample_host (EvCall CallDecrementAsync false))
    (js_exec (fire sample_host (EvCall CallIncrementAsync false)) (init_world tt)).
Definition two_timers_w2 : world unit job := set_clock (w_clock two_timers_w1 + 1000) two_timers_w1.
Definition two_timers_w3 : world unit job :=
  run_task (run_job sample_host) (mkTask (Some 1000%Z) (JDispatcher (IncrementAsyncTimer (mkParams 1))))
    (set_queue (delete 0 (w_queue two_timers_w2)) two_timers_w2).
Definition two_timers_w4 : world unit job :=
  run_task (run_job sample_host) (mkTask (Some 1000%Z) (JDispatcher (DecrementAsyncTimer (mkParams 1))))
    (set_queue (delete 0 (w_queue two_timers_w3)) two_timers_w3).

Lemma two_timers_run : rtc (host_step (run_job sample_host)) two_timers_w1 two_timers_w4.
Proof.
  apply (rtc_l _ _ two_timers_w2); [unfold two_timers_w2; apply host_tick; lia|].
  apply (rtc_l _ _ two_timers_w3); [unfold two_timers_w3; by apply (host_timer _ two_timers_w2 0)|].
  apply rtc_once. unfold two_timers_w4. by apply (host_timer _ two_timers_w3 0).
Qed.

Lemma two_timers_w1_reachable : host_reachable sample_host two_timers_w1.
Proof. unfold two_timers_w1. apply hreach_event, hreach_event, hreach_init. Qed.

Lemma two_timers_reachable : host_reachable sample_host two_timers_w4.
Proof. exact (host_reachable_star sample_host _ _ two_timers_w1_reachable two_timers_run). Qed.

Lemma timers_complete_in_order_witness :
  host_reachable sample_host two_timers_w4 /\
  w_log two_timers_w4 =
    [RCounter (CIncrementAsync (started Counter.incrementAsync (mkParams 1)));
     RCounter (CDecrementAsync (started Counter.decrementAsync (mkParams 1)));
     RCounter (CIncrementAsync (done Counter.incrementAsync (mkParams 1) 1%Z));
     RCounter (CDecrementAsync (done Counter.decrementAsync (mkParams 1) 1%Z))] /\
  timer_order (w_log two_timers_w4) = Some [].
Proof.
  split; [exact two_timers_reachable|]. split; [reflexivity|].
  exact (timers_complete_in_order sample_host (fun _ => eq_refl) two_timers_w4 two_timers_reachable).
Defined.

Lemma timers_all_complete_witness :
  host_reachable sample_host two_timers_w1 /\
  w_log (drain (run_job sample_host) 2 two_timers_w1) =
    [RCounter (CIncrementAsync (started Counter.incrementAsync (mkParams 1)));
     RCounter (CDecrementAsync (started Counter.decrementAsync (mkParams 1)));
     RCounter (CIncrementAsync (done Counter.incrementAsync (mkParams 1) 1%Z));
     RCounter (CDecrementAsync (done Counter.decrementAsync (mkParams 1) 1%Z))] /\
  timer_order (w_log (drain (run_job sample_host) 2 two_timers_w1)) = Some [].
Proof.
  pose proof two_timers_w1_reachable as Hw.
  split; [exact Hw|]. split; [reflexivity|].
  exact (proj2 (proj2 (timers_all_complete sample_host (fun _ => eq_refl) two_timers_w1 Hw))).
Defined.

Lemma quiescent_complete_witness :
  reachable sample_host two_timers_w1 /\
  rtc (loop_step (run_job sample_host)) two_timers_w1 two_timers_w4 /\
  (w_clock two_timers_w1 + 1000 <= w_clock two_timers_w4)%Z /\
  Forall (fun t => ready two_timers_w4 t = false) (w_queue two_timers_w4) /\
  w_queue two_timers_w4 = [].
Proof.
  pose proof (host_reachable_reachable sample_host _ two_timers_w1_reachable) as Hw.
  pose proof (host_steps_loop_steps (run_job sample_host) _ _ two_timers_run) as Hs.
  assert (Hc : (w_clock two_timers_w1 + 1000 <= w_clock two_timers_w4)%Z) by (vm_compute; discriminate).
  assert (Hi : Forall (fun t => ready two_timers_w4 t = false) (w_queue two_timers_w4)) by constructor.
  split; [exact Hw|]. split; [exact Hs|]. split; [exact Hc|]. split; [exact Hi|].
  exact (proj1 (quiescent_complete sample_host (fun _ => eq_refl) _ _ Hw Hs Hc Hi)).
Defined.

End Ordering.
