(* ===== verification/Runs.v ===== *)
(** * Runs of the page from a fresh store

    A run starts from the store [initializeStore] creates with a snapshot
    [s0] and takes [page_step]s: an event (a call of a method of the props'
    dispatcher, through the instance or detached, or a run of the bootstrap
    hook) or a turn of the event loop.  Module [Runs] relates runs to
    [Page.reachable] and proves that along every run the snapshot is the
    reducer folded over the dispatch log from [s0] (the lemma the renders
    of [Render] read their props with), and that, whatever the host does,
    the turns of the event loop in which no time passes always come to an
    end: the page never keeps the loop busy. *)

From S2P Require Import Prelude Fsa Actions Store Dispatcher Bootstrap Page.
From stdpp Require Import base list strings relations.
From Stdlib Require Import ZArith.
Import Store Dispatcher Bootstrap Page.
Open Scope js_scope.

Module Runs.

Section Runs.
Context {St : Type} `{Reducer St}.
Variable h : host.

(** One step of the page: an event, or a turn of the event loop. *)
Inductive page_step (w : world St job) : world St job -> Prop :=
| pstep_event e : page_step w (js_exec (fire h e) w)
| pstep_loop w' : loop_step (run_job h) w w' -> page_step w w'.

(** The worlds a run from a fresh store holding [s0] reaches. *)
Definition runs_from (s0 : St) (w : world St job) : Prop :=
  rtc page_step (init_world s0) w.

(** A turn of the event loop in which no time passes: a task runs. *)
Definition busy_turn (w' w : world St job) : Prop :=
  loop_step (run_job h) w w' /\ w_clock w' = w_clock w.
End Runs.

(** ** Lemmas *)

Section RunLemmas.
Context {St : Type} `{Reducer St}.
Variable h : host.

(** The reachable worlds are those of the runs. *)
Lemma reachable_runs_from (w : world St job) :
  reachable h w <-> exists s0, runs_from h s0 w.
Proof.
  split.
  - induction 1 as [s0|w e _ [s0 IH]|w w' _ [s0 IH] Hs].
    + exists s0. apply rtc_refl.
    + exists s0. eapply rtc_r; [exact IH|]. apply pstep_event.
    + exists s0. eapply rtc_r; [exact IH|]. by apply pstep_loop.
  - intros [s0 Hr]. revert w Hr. apply (rtc_ind_r (reachable h) (init_world s0)); [apply reach_init|].
    intros y z _ Hyz IH. destruct Hyz as [e|w' Hs]; [by apply reach_event|by eapply reach_loop].
Qed.

(** A task run removes its task and schedules nothing. *)
Lemma loop_run_queue (w w' : world St job) :
  loop_step (run_job h) w w' -> w_clock w' = w_clock w -> length (w_queue w') < length (w_queue w).
Proof.
  destruct 1 as [w i t Hi _|w d Hd]; cbn; [|lia].
  rewrite (run_task_queue _ (run_job_queue h)). cbn.
  rewrite length_delete by done. apply lookup_lt_Some in Hi. lia.
Qed.

(** Every run keeps the snapshot the fold of the reducer over its log. *)
Lemma runs_snapshot (s0 : St) (w : world St job) : runs_from h s0 w -> snapshot_inv s0 w.
Proof.
  revert w. apply (rtc_ind_r (snapshot_inv s0) (init_world s0)); [done|].
  intros y z _ Hs IH. destruct Hs as [e|w' Hl].
  - apply (fire_preserves h (snapshot_inv s0)); eauto with js.
  - inversion Hl; subst; [|exact IH].
    apply (run_task_preserves h (snapshot_inv s0)); [eauto with js..|exact IH].
Qed.
End RunLemmas.

(** ** Theorems *)

Section Theorems.
Context {St : Type} `{Reducer St}.
Variable h : host.

(** C12: the page never keeps the event loop busy forever: whatever the
    host does, there is no infinite sequence of turns in which no time
    passes (each runs one task and none schedules another), so every
    batch of ready work comes to an end. *)
Theorem busy_turns_terminate : well_founded (busy_turn (St:=St) h).
Proof.
  apply (wf_projected (<) (fun w => length (w_queue w))); [|apply lt_wf].
  intros w' w [Hs Hc]. by apply (loop_run_queue h).
Qed.

End Theorems.

End Runs.
