(* ===== verification/Render.v ===== *)
(** * The exported page: a server render and a client navigation

    Line 114 of [src/pages/redux.tsx]:
    [export default withRedux(initializeStore, mapStateToProps,
    mapDispatchToProps)(enhance(Redux))].  On a server request,
    [withRedux] creates a fresh store with [initializeStore] from a
    snapshot [s0]; the [initialProps] HOC runs the bootstrap hook with
    [isServer = true] and awaits its promise, the event loop running the
    work the hook left pending; a rejected hook fails the render (the
    spec's BootstrapFailure, section 7); otherwise the page component
    receives [mapStateToProps(store.getState())] and the props of
    [mapDispatchToProps].  The library code of [next-redux-wrapper] and
    of the HOC is not under [src/]; Module [Render] composes the models of
    the page's own parts the way that line composes them, for a root state
    [RootState C T] with any reducer.  On a client-side navigation
    [withRedux] keeps the client's store and the hook runs with
    [isServer = false]; while it awaits its remote call the event loop may
    run any other ready work, so [client_navigation] is a relation over
    the schedules, and its theorem holds for all of them. *)

From S2P Require Import Prelude Fsa Actions Store Dispatcher Bootstrap Page Runs.
From stdpp Require Import base list strings relations.
From Stdlib Require Import ZArith.
Import Descriptor Factory Counter Stories Store Bootstrap Page Runs.
Open Scope js_scope.

Module Render.

Section Render.
Context {C T : Type} `{Reducer (RootState C T)}.
Variable h : host.

(** The props the wrapped page hands to the presentation component after
    a server render, or the message of the failure that aborted it. *)
Definition server_render (s0 : RootState C T) : completion (RootState C T * DispatchProps) :=
  let w1 := js_exec (fire h (EvBootstrap true)) (init_world s0) in
  let w2 := drain (run_job h) (length (w_queue w1)) w1 in
  match w_errors w2 with
  | [] => Normal (mapStateToProps (w_state w2), mapDispatchToProps)
  | e :: _ => Throw e
  end.

(** What the awaited hook yields, once its continuation has run from
    [w1] to [w2]: the props of the world it leaves, or the message of the
    failure it reported. *)
Definition hook_outcome (w1 w2 : world (RootState C T) job) : completion (RootState C T * DispatchProps) :=
  match drop (length (w_errors w1)) (w_errors w2) with
  | [] => Normal (mapStateToProps (w_state w2), mapDispatchToProps)
  | e :: _ => Throw e
  end.

(** A client-side navigation to the page (line 114): [withRedux] keeps
    the client's store, here in world [w]; [initialProps] runs the hook
    with [isServer = false] and awaits it.  While the remote call is in
    flight the event loop may run any other ready task (timers of earlier
    calls, other continuations), in any order; the props are taken when
    the hook's continuation has run. *)
Inductive client_navigation (w : world (RootState C T) job) :
  completion (RootState C T * DispatchProps) -> world (RootState C T) job -> Prop :=
| client_nav w1 i t :
    rtc (loop_step (run_job h)) (js_exec (fire h (EvBootstrap false)) w) w1 ->
    w_queue w1 !! i = Some t -> t_job t = JBootstrap EnhanceResume -> ready w1 t = true ->
    client_navigation w
      (hook_outcome w1 (run_task (run_job h) t (set_queue (delete i (w_queue w1)) w1)))
      (run_task (run_job h) t (set_queue (delete i (w_queue w1)) w1)).
End Render.

(** ** Theorems *)

Section Server.
Context {C T : Type} `{Reducer (RootState C T)}.
Variable h : host.
Hypothesis quiet : forall a, listener_fault h a = None.

(** The world of a server render once the hook has settled. *)
Lemma server_render_world (s0 : RootState C T) :
  let w1 := js_exec (fire h (EvBootstrap true)) (init_world s0) in
  let w2 := drain (run_job h) (length (w_queue w1)) w1 in
  runs_from h s0 w2 /\
  match api_fetchTopStoryIds h with
  | Normal ids =>
      w_log w2 = [RCounter (CIncrement (Counter.increment (mkParams 5)));
                  RStories (SFetchTopStories (done fetchTopStories tt (take 5 ids)))] /\
      w_errors w2 = []
  | Throw e =>
      w_log w2 = [RCounter (CIncrement (Counter.increment (mkParams 5)))] /\ w_errors w2 = [e]
  end.
Proof.
  cbn zeta. split.
  - eapply rtc_l; [apply pstep_event|].
    eapply (rtc_congruence id); [intros x y Hxy; by apply pstep_loop|].
    apply drain_star.
  - set (w1 := js_exec (fire h (EvBootstrap true)) (init_world s0)).
    destruct (enhance_effect h quiet true (init_world (J:=job) s0)) as (_ & Hl & Hq & He).
    change (snd (enhance h true (init_world s0))) with w1 in Hl, Hq, He.
    cbn [w_queue w_log w_errors init_world app] in Hl, Hq, He.
    rewrite Hq. cbn [length drain]. unfold run_next. rewrite Hq. cbn [t_due].
    pose proof (enhance_resume_effect h quiet (set_clock (w_clock w1) (set_queue [] w1))) as Hr.
    cbn [w_log w_errors set_clock set_queue] in Hr. rewrite Hl, He in Hr.
    unfold run_task. cbn [t_job run_job job_of bjob_of].
    destruct (api_fetchTopStoryIds h); exact Hr.
Qed.

(** C13: a server render of the exported page (line 114) from a store
    created with snapshot [s0]: when [API.fetchTopStoryIds()] resolves
    with [ids], the page receives the snapshot the reducer gives after
    [increment({delta: 5})] then [fetchTopStories.done] with the first
    five ids, and a fresh dispatcher; when it rejects, the render fails
    with the message of the failure. *)
Theorem server_render_spec (s0 : RootState C T) :
  server_render h s0 =
  match api_fetchTopStoryIds h with
  | Normal ids =>
      Normal (mapStateToProps
                (foldl reducer s0 [RCounter (CIncrement (Counter.increment (mkParams 5)));
                                   RStories (SFetchTopStories (done fetchTopStories tt (take 5 ids)))]),
              mapDispatchToProps)
  | Throw e => Throw e
  end.
Proof.
  destruct (server_render_world s0) as [Hr Hw]. unfold server_render.
  rewrite (runs_snapshot h s0 _ Hr).
  destruct (api_fetchTopStoryIds h); destruct Hw as [-> ->]; reflexivity.
Qed.
End Server.

(** A terminal descriptor: [done] or [failed]. *)
Definition is_terminal_phase (a : ReduxAction) : bool :=
  match phase_of a with Some Done | Some Failed => true | _ => false end.

Section Seed.
Context {C T : Type} `{Reducer (RootState C T)}.
Variable h : host.

(** C20: the hook has no [catch] (lines 101-112): on the server, when a
    subscriber throws while [increment({delta: 5})] is dispatched, the
    hook stops before calling [API.fetchTopStoryIds()], its promise
    rejects, and the render fails with that message, whatever the remote
    call would have done. *)
Theorem server_render_seed_fault (s0 : RootState C T) (e : string) :
  listener_fault h (RCounter (CIncrement (Counter.increment (mkParams 5)))) = Some e ->
  server_render h s0 = Throw e.
Proof.
  intros Hf. unfold server_render, fire, enhance, js_exec, js_settle, js_bind, dispatch.
  cbn. by rewrite Hf.
Qed.
End Seed.

Section Client.
Context {C T : Type} `{Reducer (RootState C T)}.
Variable h : host.
Hypothesis quiet : forall a, listener_fault h a = None.

(** A task run dispatches only terminal descriptors. *)
Lemma run_task_terminal (t : task job) (w : world (RootState C T) job) :
  exists s, w_log (run_task (run_job h) t w) = w_log w ++ s /\
            Forall (fun a => is_terminal_phase a = true) s.
Proof. task_cases h quiet t w ltac:(repeat constructor). Qed.

(** So do turns of the event loop. *)
Lemma loop_steps_terminal (w w' : world (RootState C T) job) :
  rtc (loop_step (run_job h)) w w' ->
  exists s, w_log w' = w_log w ++ s /\ Forall (fun a => is_terminal_phase a = true) s.
Proof.
  induction 1 as [w|w w1 w' Hs _ (s & Hl & Hf)]; [exists []; by rewrite app_nil_r|].
  destruct Hs as [w i t _ _|w d _].
  - destruct (run_task_terminal t (set_queue (delete i (w_queue w)) w)) as (s1 & Hl1 & Hf1).
    exists (s1 ++ s). rewrite Hl, Hl1, app_assoc. split; [done|by apply Forall_app].
  - by exists s.
Qed.

(** The runs of a navigation from a reachable world are runs of the page. *)
Lemma navigation_runs (s0 : RootState C T) (w w1 : world (RootState C T) job) i t :
  runs_from h s0 w ->
  rtc (loop_step (run_job h)) (js_exec (fire h (EvBootstrap false)) w) w1 ->
  w_queue w1 !! i = Some t -> ready w1 t = true ->
  runs_from h s0 (run_task (run_job h) t (set_queue (delete i (w_queue w1)) w1)).
Proof.
  intros Hw Hs Hi Hr. unfold runs_from in *.
  eapply rtc_r; [|apply pstep_loop; by apply (loop_run _ w1 i t)].
  eapply rtc_trans; [exact Hw|].
  apply (rtc_l _ _ (js_exec (fire h (EvBootstrap false)) w)); [apply pstep_event|].
  eapply (rtc_congruence id); [intros x y Hxy; by apply pstep_loop|exact Hs].
Qed.
(** C19: a client-side navigation to the exported page (line 114) from
    any world the page can reach: whatever other work the event loop runs
    while the hook awaits [API.fetchTopStoryIds()], it dispatches only
    terminal descriptors ([between]); the hook dispatches no
    [increment({delta: 5})] on this leg, and when the call resolves it
    dispatches one [fetchTopStories.done] with the first five ids last, so
    the component receives the client's snapshot with the reducer applied
    to [between] then that [done]; when the call rejects, nothing more is
    dispatched and the navigation fails with the message. *)
Theorem client_navigation_spec (w w2 : world (RootState C T) job) r :
  reachable h w -> client_navigation h w r w2 ->
  exists between,
    Forall (fun a => is_terminal_phase a = true) between /\
    match api_fetchTopStoryIds h with
    | Normal ids =>
        let d := RStories (SFetchTopStories (done fetchTopStories tt (take 5 ids))) in
        w_log w2 = w_log w ++ between ++ [d] /\
        r = Normal (mapStateToProps (foldl reducer (w_state w) (between ++ [d])), mapDispatchToProps)
    | Throw e => w_log w2 = w_log w ++ between /\ r = Throw e
    end.
Proof.
  intros Hw [w1 i t Hs Hi Hj Hr].
  destruct (proj1 (reachable_runs_from h w) Hw) as [s0 Hs0].
  pose proof (runs_snapshot h s0 _ (navigation_runs s0 w w1 i t Hs0 Hs Hi Hr)) as Hst.
  pose proof (runs_snapshot h s0 w Hs0) as Hst0. unfold snapshot_inv in Hst, Hst0.
  destruct (enhance_effect h quiet false w) as (_ & Hl0 & _).
  destruct (loop_steps_terminal _ _ Hs) as (between & Hl1 & Hb).
  change (js_exec (fire h (EvBootstrap false)) w) with (snd (enhance h false w)) in Hl1.
  rewrite Hl0, app_nil_r in Hl1.
  pose proof (enhance_resume_effect h quiet (set_queue (delete i (w_queue w1)) w1)) as Hres.
  destruct t as [due j]; cbn in Hj; subst j.
  change (js_exec (js_settle report (run_bjob h EnhanceResume)) (set_queue (delete i (w_queue w1)) w1))
    with (run_task (run_job h) (mkTask due (JBootstrap EnhanceResume)) (set_queue (delete i (w_queue w1)) w1))
    in Hres.
  exists between. split; [exact Hb|]. unfold hook_outcome.
  destruct (api_fetchTopStoryIds h) as [ids|e]; destruct Hres as [Hl2 He2]; cbn [w_log w_errors set_queue] in Hl2, He2;
    rewrite Hl2, Hl1, <- ?app_assoc; (split; [done|]); rewrite He2.
  - rewrite drop_all. f_equal. f_equal. f_equal. rewrite Hst, Hl2, Hl1, <- app_assoc, foldl_app, Hst0. done.
  - by rewrite drop_app_length.
Qed.
End Client.

(** A root state whose slices record the descriptors applied to them,
    for a concrete render. *)
#[local] Instance recording_root : Reducer (RootState (list ReduxAction) unit) :=
  fun s a => mkRootState (counter s ++ [a]) (stories s).

Lemma server_render_spec_witness :
  (forall a, listener_fault sample_host a = None) /\
  server_render sample_host (mkRootState [] tt) =
    Normal (mkRootState [RCounter (CIncrement (Counter.increment (mkParams 5)));
                         RStories (SFetchTopStories (done fetchTopStories tt [1; 2; 3; 4; 5]%Z))] tt,
            mapDispatchToProps).
Proof.
  split; [reflexivity|].
  exact (server_render_spec sample_host (fun _ => eq_refl) (mkRootState [] tt)).
Defined.

Definition nav_w0 : world (RootState (list ReduxAction) unit) job := init_world (mkRootState [] tt).
Definition nav_w1 : world (RootState (list ReduxAction) unit) job :=
  js_exec (fire sample_host (EvBootstrap false)) nav_w0.
Definition nav_w2 : world (RootState (list ReduxAction) unit) job :=
  run_task (run_job sample_host) (mkTask None (JBootstrap EnhanceResume))
    (set_queue (delete 0 (w_queue nav_w1)) nav_w1).

Lemma nav_client_navigation :
  client_navigation sample_host nav_w0 (hook_outcome nav_w1 nav_w2) nav_w2.
Proof. by apply (client_nav _ _ nav_w1 0 (mkTask None (JBootstrap EnhanceResume))). Qed.

Lemma client_navigation_spec_witness :
  reachable sample_host nav_w0 /\
  client_navigation sample_host nav_w0 (hook_outcome nav_w1 nav_w2) nav_w2 /\
  hook_outcome nav_w1 nav_w2 =
    Normal (mkRootState [RStories (SFetchTopStories (done fetchTopStories tt [1; 2; 3; 4; 5]%Z))] tt,
            mapDispatchToProps) /\
  exists between,
    Forall (fun a => is_terminal_phase a = true) between /\
    w_log nav_w2 = w_log nav_w0 ++ between ++
      [RStories (SFetchTopStories (done fetchTopStories tt [1; 2; 3; 4; 5]%Z))] /\
    hook_outcome nav_w1 nav_w2 =
      Normal (mapStateToProps (foldl reducer (w_state nav_w0)
        (between ++ [RStories (SFetchTopStories (done fetchTopStories tt [1; 2; 3; 4; 5]%Z))])),
        mapDispatchToProps).
Proof.
  assert (Hw : reachable sample_host nav_w0) by apply reach_init.
  split; [exact Hw|]. split; [exact nav_client_navigation|]. split; [reflexivity|].
  exact (client_navigation_spec sample_host (fun _ => eq_refl) _ _ _ Hw nav_client_navigation).
Defined.

(** A host whose subscriber throws on every synchronous descriptor. *)
Definition seed_fault_host : host :=
  mkHost (api_fetchStory sample_host) (api_fetchTopStoryIds sample_host) None
    (fun a => match phase_of a with None => Some "listener failed" | Some _ => None end).

Lemma server_render_seed_fault_witness :
  listener_fault seed_fault_host (RCounter (CIncrement (Counter.increment (mkParams 5)))) =
    Some "listener failed" /\
  server_render (C:=list ReduxAction) (T:=unit) seed_fault_host (mkRootState [] tt) = Throw "listener failed".
Proof.
  split; [reflexivity|].
  exact (server_render_seed_fault seed_fault_host (mkRootState [] tt) "listener failed" eq_refl).
Defined.

End Render.
